(** * DBList: a list kept partly in memory and partly on disk

    A shallow embedding of [pkg/dblist.go].  The Go package keeps the
    first [maxInMemory] items of a list in a slice and writes every later
    item to a file of its own; a slice of physical positions,
    [sortedIndexes], gives the logical order and is the only thing that
    [Sort] rearranges.

    What the embedding keeps from Go:
    - [int] values are [Z].  The only arithmetic the package does on an
      [int] is [totalCount++], and [totalCount] is the length of the slice
      [sortedIndexes], so it stays below the largest slice length and the
      increment never wraps;
    - slices are lists, indexed through [slice_index], which panics out of
      range the way the Go runtime does; [make] panics on a capacity that
      is negative or beyond what the runtime allocates ([Runtime]);
    - a function returning [(T, error)] returns a pair [T * option error]:
      Go hands back both values and [Sort] does use the first one after
      dropping the second;
    - the methods run one at a time: the [sync.RWMutex] serialises them and
      is not modelled. *)

From Stdlib Require Import ZArith Lia List Permutation.
From Stdlib Require Import Strings.String Strings.Ascii Strings.Byte.
From stdpp Require Import base option list gmap sets strings pretty.

Local Open Scope string_scope.
Local Open Scope list_scope.
Local Open Scope Z_scope.

(** ** Go runtime values *)

(** [[]byte] *)
Definition bytes := list Byte.byte.

(** The [error] interface: a plain message, or a message wrapping another
    error ([fmt.Errorf] with the verb [%w]). *)
Inductive error : Type :=
  | errorString (msg : string)
  | wrapError (msg : string) (inner : error).

(** [fmt.Errorf(msg)] without verbs, and with a trailing [%w]. *)
Definition fmt_Errorf (msg : string) : error := errorString msg.
Definition fmt_Errorf_w (msg : string) (err : error) : error := wrapError msg err.

(** Run-time faults that unwind the goroutine. *)
Inductive panic : Type :=
  | IndexOutOfRange (index : Z) (len : nat)
  | MakeSliceCapOutOfRange
  | PanicValue (msg : string).

(** The outcome of a call: it returns, or it panics. *)
Inductive result (A : Type) : Type :=
  | Done (a : A)
  | Panicked (p : panic).
Arguments Done {A} a.
Arguments Panicked {A} p.

#[global] Instance result_ret : MRet result := fun A a => Done a.
#[global] Instance result_bind : MBind result := fun A B k r =>
  match r with
  | Done a => k a
  | Panicked p => Panicked p
  end.

(** [len(s)] *)
Definition len {A : Type} (s : list A) : Z := Z.of_nat (length s).

(** [s[i]]: the Go runtime checks the bounds and panics outside them. *)
Definition slice_index {A : Type} (s : list A) (i : Z) : result A :=
  if (0 <=? i) && (i <? len s) then
    match s !! Z.to_nat i with
    | Some x => Done x
    | None => Panicked (IndexOutOfRange i (length s))
    end
  else Panicked (IndexOutOfRange i (length s)).

(** [fmt.Sprintf("%d", i)] *)
Definition fmt_d (i : Z) : string := pretty i.

(** ** The filesystem *)

(** The package calls [os.MkdirAll], [os.Create], [File.Write] and
    [os.ReadFile].  The world holds the content of every file, the
    directories made so far, and for every call and path whether the
    operating system refuses it. *)
Inductive syscall : Type := SysMkdirAll | SysCreate | SysWrite | SysReadFile.

Record World : Type := mkWorld {
  files : gmap string bytes;
  dirs : gset string;
  fault : syscall -> string -> option error
}.

Definition os_MkdirAll (path : string) (w : World) : option error * World :=
  match fault w SysMkdirAll path with
  | Some e => (Some e, w)
  | None => (None, mkWorld (files w) ({[path]} ∪ dirs w) (fault w))
  end.

(** [os.Create] truncates the file or creates it empty; the handle is the
    path. *)
Definition os_Create (path : string) (w : World) : string * option error * World :=
  match fault w SysCreate path with
  | Some e => (path, Some e, w)
  | None => (path, None, mkWorld (<[path := []]> (files w)) (dirs w) (fault w))
  end.

(** [file.Write(data)] on a file that [os.Create] has just opened. *)
Definition File_Write (file : string) (data : bytes) (w : World)
  : Z * option error * World :=
  match fault w SysWrite file with
  | Some e => (0, Some e, w)
  | None => (len data, None, mkWorld (<[file := data]> (files w)) (dirs w) (fault w))
  end.

Definition os_ReadFile (path : string) (w : World) : bytes * option error :=
  match fault w SysReadFile path with
  | Some e => ([], Some e)
  | None =>
      match files w !! path with
      | Some data => (data, None)
      | None => ([], Some (wrapError ("open " +:+ path +:+ ": ")
                             (errorString "no such file or directory")))
      end
  end.

(** ** The collaborators of the package *)

(** [encoding/json] for the element type, with the zero value of the type.
    [json.Unmarshal(data, &item)] writes into [item] and may have written
    part of it when it fails, so it takes the old value and returns the
    new one. *)
Class JSON (T : Type) : Type := {
  zero : T;
  json_Marshal : T -> bytes * option error;
  json_Unmarshal : bytes -> T -> T * option error
}.

(** [path/filepath] *)
Class Filepath : Type := {
  filepath_Join : string -> string -> string;
  filepath_Dir : string -> string
}.

(** The Go runtime, as [make] sees it: the size in bytes of an element of
    [[]T] and of an [int], and [maxAlloc], the largest allocation the
    runtime accepts (2^48 bytes on 64-bit Linux). *)
Class Runtime (T : Type) : Type := {
  sizeof_elem : Z;
  sizeof_int : Z;
  maxAlloc : Z
}.

(** [make([]E, 0, cap)]: [runtime.makeslice] panics with "makeslice: cap
    out of range" when the capacity is negative or when [cap] elements
    take more than [maxAlloc] bytes. *)
Definition makeslice_cap_ok (elemsize maxalloc cap : Z) : bool :=
  (0 <=? cap) && (elemsize * cap <=? maxalloc).

(** [context.Context], as the producer of [Iterator] sees it: at its
    [i]-th round, whether [ctx.Err()] is non-nil before the lookup, and
    whether the [select] takes [<-ctx.Done()] instead of the send. *)
Record Context : Type := mkContext {
  ctx_Err : Z -> bool;
  ctx_Done : Z -> bool
}.

Definition context_Background : Context :=
  mkContext (fun _ => false) (fun _ => false).

(** ** [sort.SliceStable] *)

(** [sort.SliceStable(x, less)] sorts [x] in place.  [less] takes two
    indices and reads the slice as it stands when it is called, so it is
    given the current content of the slice.  The library is not part of
    the package.  It sorts runs of 20 elements with the insertion sort
    below and merges the runs with SymMerge, swapping elements only; a
    slice of at most 20 elements is sorted by this insertion sort alone.
    The model is the insertion sort on the whole slice.  For a [less]
    that is a strict weak order on distinct elements, which is what the
    library asks for, the sorted and stable arrangement of the slice is
    unique and is the one this sort returns ([stable_sort_unique]). *)
Section SliceStable.
Context {A : Type}.

(** [reflect.Swapper(x)(i, j)] *)
Definition swap (x : list A) (i j : nat) : list A :=
  match x !! i, x !! j with
  | Some a, Some b => <[i := b]> (<[j := a]> x)
  | _, _ => x
  end.

(** [for j := i; j > a && less(j, j-1); j-- { swap(j, j-1) }], with
    [j = a + k]. *)
Fixpoint insertionSort_inner (less : list A -> Z -> Z -> result bool)
    (a k : nat) (x : list A) : result (list A) :=
  match k with
  | O => Done x
  | S k' =>
      let j := (a + S k')%nat in
      lt ← less x (Z.of_nat j) (Z.of_nat j - 1);
      if (lt : bool) then insertionSort_inner less a k' (swap x j (j - 1))
      else Done x
  end.

(** [for i := a + 1; i < b; i++ { ... }], with [n] rounds left. *)
Fixpoint insertionSort_outer (less : list A -> Z -> Z -> result bool)
    (a i n : nat) (x : list A) : result (list A) :=
  match n with
  | O => Done x
  | S n' =>
      x' ← insertionSort_inner less a (i - a) x;
      insertionSort_outer less a (S i) n' x'
  end.

Definition insertionSort (less : list A -> Z -> Z -> result bool)
    (a b : nat) (x : list A) : result (list A) :=
  insertionSort_outer less a (S a) (b - S a) x.

Definition sort_SliceStable (x : list A) (less : list A -> Z -> Z -> result bool)
  : result (list A) :=
  insertionSort less 0 (length x) x.

End SliceStable.

(** ** The package *)

Section DBList.
Context {T : Type} `{!JSON T} `{!Filepath} `{!Runtime T}.

Record DBList : Type := mkDBList {
  memoryData : list T;
  diskPath : string;
  maxInMemory : Z;
  totalCount : Z;
  sortedIndexes : list Z;
  isSorted : bool
}.

(** [make([]T, 0, maxInMemory)] and [make([]int, 0, maxInMemory)] panic
    when the capacity is negative or too large for the runtime. *)
Definition NewDBList (path : string) (maxInMemory : Z) : result DBList :=
  if makeslice_cap_ok sizeof_elem maxAlloc maxInMemory
     && makeslice_cap_ok sizeof_int maxAlloc maxInMemory
  then Done {| memoryData := [];
               diskPath := path;
               maxInMemory := maxInMemory;
               totalCount := 0;
               sortedIndexes := [];
               isSorted := true |}
  else Panicked MakeSliceCapOutOfRange.

Definition filePathForIndex (d : DBList) (index : Z) (create : bool) (w : World)
  : string * option error * World :=
  let filePath := filepath_Join (diskPath d) (fmt_d index +:+ ".json") in
  if create then
    let dirPath := filepath_Dir filePath in
    match os_MkdirAll dirPath w with
    | (Some err, w') =>
        ("", Some (fmt_Errorf_w "failed to create directory: " err), w')
    | (None, w') => (filePath, None, w')
    end
  else (filePath, None, w).

(** The last three statements of [Add]. *)
Definition Add_commit (d : DBList) (memoryData' : list T) : DBList :=
  {| memoryData := memoryData';
     diskPath := diskPath d;
     maxInMemory := maxInMemory d;
     totalCount := totalCount d + 1;
     sortedIndexes := sortedIndexes d ++ [totalCount d];
     isSorted := false |}.

Definition Add (d : DBList) (item : T) (w : World) : DBList * option error * World :=
  if len (memoryData d) <? maxInMemory d then
    (Add_commit d (memoryData d ++ [item]), None, w)
  else
    match filePathForIndex d (totalCount d) true w with
    | (_, Some err, w1) => (d, Some err, w1)
    | (filePath, None, w1) =>
        match json_Marshal item with
        | (_, Some err) => (d, Some err, w1)
        | (data, None) =>
            match os_Create filePath w1 with
            | (_, Some err, w2) => (d, Some err, w2)
            | (file, None, w2) =>
                match File_Write file data w2 with
                | (_, Some err, w3) => (d, Some err, w3)
                | (_, None, w3) => (Add_commit d (memoryData d), None, w3)
                end
            end
        end
    end.

Fixpoint Adds (d : DBList) (items : list T) (w : World)
  : DBList * option error * World :=
  match items with
  | [] => (d, None, w)
  | item :: items' =>
      match Add d item w with
      | (d', Some err, w') => (d', Some err, w')
      | (d', None, w') => Adds d' items' w'
      end
  end.

Definition Size (d : DBList) : Z := totalCount d.

(** With [create] false [filePathForIndex] leaves the world alone, and
    [os.ReadFile] only reads: the lookups return no world. *)
Definition retrieveFromDisk (d : DBList) (w : World) (index : Z) : T * option error :=
  let item := zero in
  match filePathForIndex d index false w with
  | (_, Some err, _) => (item, Some err)
  | (filePath, None, w) =>
      match os_ReadFile filePath w with
      | (_, Some err) => (item, Some (fmt_Errorf_w "failed to read from disk: " err))
      | (data, None) =>
          match json_Unmarshal data item with
          | (item, Some err) =>
              (item, Some (fmt_Errorf_w "failed to unmarshal data: " err))
          | (item, None) => (item, None)
          end
      end
  end.

Definition getFromStorage (d : DBList) (w : World) (index : Z)
  : result (T * option error) :=
  if index <? len (memoryData d) then
    item ← slice_index (memoryData d) index; Done (item, None)
  else Done (retrieveFromDisk d w index).

Definition Get (d : DBList) (w : World) (index : Z) : result (T * option error) :=
  if index >=? len (sortedIndexes d) then
    Done (zero, Some (fmt_Errorf "index out of range"))
  else
    index ← slice_index (sortedIndexes d) index;
    getFromStorage d w index.

(** The closure that [Sort] hands to [sort.SliceStable]; [s] is
    [d.sortedIndexes] at the time of the call.  Both errors are dropped
    and the items are compared whatever they are. *)
Definition Sort_less (d : DBList) (w : World) (compare : T -> T -> result bool)
    (s : list Z) (i j : Z) : result bool :=
  pi ← slice_index s i;
  '(itemA, _) ← getFromStorage d w pi;
  pj ← slice_index s j;
  '(itemB, _) ← getFromStorage d w pj;
  compare itemA itemB.

(** [compare] is a Go function and may panic. *)
Definition Sort (d : DBList) (w : World) (compare : T -> T -> result bool)
  : result DBList :=
  if isSorted d then Done d
  else
    s ← sort_SliceStable (sortedIndexes d) (Sort_less d w compare);
    Done {| memoryData := memoryData d;
            diskPath := diskPath d;
            maxInMemory := maxInMemory d;
            totalCount := totalCount d;
            sortedIndexes := s;
            isSorted := true |}.

(** [slog.Error(fmt.Sprintf("DBList failed to load index %d", i))] *)
Definition Iterator_log (i : Z) : string :=
  "DBList failed to load index " +:+ fmt_d i.

(** The goroutine of [Iterator], from round [i] on: what it sends on the
    channel, to a consumer that takes every item, and what it logs.  The
    loop tests [i < d.totalCount] itself; [fuel] bounds the rounds. *)
Fixpoint Iterator_loop (d : DBList) (w : World) (ctx : Context)
    (fuel : nat) (i : Z) : result (list T * list string) :=
  match fuel with
  | O => Done ([], [])
  | S fuel' =>
      if i <? totalCount d then
        if ctx_Err ctx i then Done ([], [])
        else
          '(item, err) ← Get d w i;
          match err with
          | Some _ =>
              '(sent, logged) ← Iterator_loop d w ctx fuel' (i + 1);
              Done (sent, Iterator_log i :: logged)
          | None =>
              if ctx_Done ctx i then Done ([], [])
              else
                '(sent, logged) ← Iterator_loop d w ctx fuel' (i + 1);
                Done (item :: sent, logged)
          end
      else Done ([], [])
  end.

Definition Iterator (d : DBList) (w : World) (ctx : Context)
  : result (list T * list string) :=
  Iterator_loop d w ctx (Z.to_nat (totalCount d)) 0.

End DBList.

Arguments DBList T : clear implicits.

(** ** States the package can be in, and words to talk about them *)

Section Reachable.
Context {T : Type} `{!JSON T} `{!Filepath} `{!Runtime T}.

(** The lists a program can hold: made by [NewDBList], then changed by
    [Add] (whether it fails or not; [Adds] is a run of [Add]) and by
    [Sort].  [Size], [Get] and [Iterator] change nothing, and a call that
    panics is taken to end the program. *)
Inductive reachable : DBList T -> Prop :=
  | reachable_New path maxInMemory d :
      NewDBList path maxInMemory = Done d -> reachable d
  | reachable_Add d item w d' err w' :
      reachable d -> Add d item w = (d', err, w') -> reachable d'
  | reachable_Sort d w compare d' :
      reachable d -> Sort d w compare = Done d' -> reachable d'.

(** The path of the record of physical position [p]. *)
Definition recordPath (path : string) (p : Z) : string :=
  filepath_Join path (fmt_d p +:+ ".json").

(** What [Sort] compares for the physical position [p]: the first value
    that [getFromStorage] returns, error or not. *)
Definition materialized (d : DBList T) (w : World) (p : Z) : T :=
  match getFromStorage d w p with
  | Done (item, _) => item
  | Panicked _ => zero
  end.

(** [getFromStorage] returns the item of position [p] without an error. *)
Definition readable (d : DBList T) (w : World) (p : Z) : Prop :=
  exists item, getFromStorage d w p = Done (item, None).

(** [Get] does not hand back an item for the logical index [i]. *)
Definition Get_fails (d : DBList T) (w : World) (i : Z) : bool :=
  match Get d w i with
  | Done (_, None) => false
  | _ => true
  end.

(** The item that [Get] hands back for the logical index [i], if any. *)
Definition Get_item (d : DBList T) (w : World) (i : Z) : option T :=
  match Get d w i with
  | Done (item, None) => Some item
  | _ => None
  end.

(** The invariant of the representation. *)
Definition well_formed (d : DBList T) : Prop :=
  len (sortedIndexes d) = totalCount d /\
  sortedIndexes d ≡ₚ seqZ 0 (totalCount d) /\
  len (memoryData d) = Z.min (totalCount d) (maxInMemory d) /\
  0 <= maxInMemory d.

End Reachable.

(** [a] stands before [b] in [l]. *)
Definition before {A : Type} (l : list A) (a b : A) : Prop :=
  exists i j : nat, (i < j)%nat /\ l !! i = Some a /\ l !! j = Some b.

(** A comparator in the sense of [sort]: a strict weak order. *)
Record StrictWeakOrder {A : Type} (lt : A -> A -> bool) : Prop := {
  swo_irrefl : forall a, lt a a = false;
  swo_trans : forall a b c, lt a b = true -> lt b c = true -> lt a c = true;
  swo_incomparable_trans : forall a b c,
    lt a b = false -> lt b a = false -> lt b c = false -> lt c b = false ->
    lt a c = false /\ lt c a = false
}.

(** Insertion sort as a function on lists, for comparison with the
    in-place one.  The sorted prefix is kept reversed, nearest element
    first: [x] moves past [y] exactly when [less x y]. *)
Fixpoint insert_back {A : Type} (lt : A -> A -> bool) (x : A) (r : list A) : list A :=
  match r with
  | [] => [x]
  | y :: r' => if lt x y then y :: insert_back lt x r' else x :: r
  end.

Definition insertion_sorted {A : Type} (lt : A -> A -> bool) (x : list A) : list A :=
  rev (fold_left (fun r y => insert_back lt y r) x []).

(** ** A concrete element type and a concrete machine *)

(** [type Item struct { ID int }], as in the tests of the package. *)
Record Item : Type := mkItem { ID : Z }.

Definition dquote : string := String "034"%char EmptyString.

(** [json.Marshal(Item{ID: n})] is [{"ID":n}]. *)
Definition Item_Marshal (it : Item) : bytes * option error :=
  (list_byte_of_string ("{" +:+ dquote +:+ "ID" +:+ dquote +:+ ":" +:+ fmt_d (ID it) +:+ "}"),
   None).

Fixpoint strip_prefix (p s : string) : option string :=
  match p, s with
  | EmptyString, _ => Some s
  | String a p', String b s' => if Ascii.eqb a b then strip_prefix p' s' else None
  | String _ _, EmptyString => None
  end.

Definition digit_value (c : ascii) : option Z :=
  let n := Z.of_nat (nat_of_ascii c) in
  if (48 <=? n) && (n <=? 57) then Some (n - 48) else None.

(** Decimal digits up to the closing brace, which must end the text. *)
Fixpoint parse_digits (s : string) (acc : Z) (seen : bool) : option Z :=
  match s with
  | EmptyString => None
  | String c s' =>
      match digit_value c with
      | Some v => parse_digits s' (10 * acc + v) true
      | None =>
          if Ascii.eqb c "}"%char && seen then
            match s' with EmptyString => Some acc | _ => None end
          else None
      end
  end.

Definition parse_Item (s : string) : option Z :=
  match strip_prefix ("{" +:+ dquote +:+ "ID" +:+ dquote +:+ ":") s with
  | None => None
  | Some s' =>
      match s' with
      | String "-"%char s'' => Z.opp <$> parse_digits s'' 0 false
      | _ => parse_digits s' 0 false
      end
  end.

Definition Item_Unmarshal (data : bytes) (item : Item) : Item * option error :=
  match parse_Item (string_of_list_byte data) with
  | Some n => (mkItem n, None)
  | None => (item, Some (errorString "invalid character"))
  end.

#[global] Instance Item_JSON : JSON Item := {|
  zero := mkItem 0;
  json_Marshal := Item_Marshal;
  json_Unmarshal := Item_Unmarshal
|}.

(** An [Item] and an [int] take 8 bytes each on a 64-bit machine. *)
#[global] Instance Item_Runtime : Runtime Item := {|
  sizeof_elem := 8;
  sizeof_int := 8;
  maxAlloc := 2 ^ 48
|}.

(** [filepath.Join] and [filepath.Dir] on a directory name that is
    already clean and a file name without separator. *)
Definition unix_Join (dir name : string) : string :=
  match dir with
  | EmptyString => name
  | _ => dir +:+ "/" +:+ name
  end.

Fixpoint unix_Dir_go (s : string) (cur : string) (last : option string) : option string :=
  match s with
  | EmptyString => last
  | String c s' =>
      if Ascii.eqb c "/"%char then unix_Dir_go s' (cur +:+ "/") (Some cur)
      else unix_Dir_go s' (cur +:+ String c EmptyString) last
  end.

Definition unix_Dir (path : string) : string :=
  match unix_Dir_go path "" None with
  | Some "" => "/"
  | Some dir => dir
  | None => "."
  end.

#[global] Instance unix_Filepath : Filepath := {|
  filepath_Join := unix_Join;
  filepath_Dir := unix_Dir
|}.

(** An empty disk on which every call succeeds. *)
Definition empty_disk : World := mkWorld ∅ ∅ (fun _ _ => None).

(** [compare] functions of the tests: by ascending [ID], and one that
    orders nothing. *)
Definition by_ID (a b : Item) : result bool := Done (ID a <? ID b).
Definition all_equal (a b : Item) : result bool := Done false.
Definition panicking (a b : Item) : result bool :=
  Panicked (PanicValue "compare was called").

(** The list of the given capacity holding the given IDs, on a disk. *)
Definition list_of (path : string) (capacity : Z) (ids : list Z) (w : World)
  : result (DBList Item * option error * World) :=
  d ← NewDBList path capacity; Done (Adds d (mkItem <$> ids) w).

(** The disk after the record of position [p] was deleted behind the
    back of the list. *)
Definition delete_record (path : string) (p : Z) (w : World) : World :=
  mkWorld (delete (recordPath path p) (files w)) (dirs w) (fault w).

(** A disk that is full: every [Write] fails. *)
Definition full_disk : World :=
  mkWorld ∅ ∅ (fun call _ =>
    match call with
    | SysWrite => Some (errorString "no space left on device")
    | _ => None
    end).

(** The list and the disk that [list_of] leaves. *)
Definition list_after (path : string) (capacity : Z) (ids : list Z) (w : World)
  : DBList Item :=
  match list_of path capacity ids w with
  | Done (d, _, _) => d
  | Panicked _ => mkDBList [] path capacity 0 [] true
  end.

Definition disk_after (path : string) (capacity : Z) (ids : list Z) (w : World)
  : World :=
  match list_of path capacity ids w with
  | Done (_, _, w') => w'
  | Panicked _ => w
  end.

(** The list that [Sort] leaves. *)
Definition sorted_after (d : DBList Item) (w : World)
    (compare : Item -> Item -> result bool) : DBList Item :=
  match Sort d w compare with
  | Done d' => d'
  | Panicked _ => d
  end.

(** IDs 2 and 1 are added, the list is sorted by ID, then ID 3 is added. *)
Definition sorted_then_grown : DBList Item :=
  let d := sorted_after (list_after "" 10 [2; 1] empty_disk) empty_disk by_ID in
  (Add d (mkItem 3) empty_disk).1.1.

(** ** Runs of the package *)

Section Runs.
Context {T : Type} `{!JSON T} `{!Filepath} `{!Runtime T}.

(** One call that changes the list or the disk: an [Add], failed or not,
    or a [Sort], which writes nothing. *)
Inductive step : DBList T * World -> DBList T * World -> Prop :=
  | step_Add d w item d' err w' :
      Add d item w = (d', err, w') -> step (d, w) (d', w')
  | step_Sort d w compare d' :
      Sort d w compare = Done d' -> step (d, w) (d', w).

(** Any number of such calls, one after the other, with nothing else
    touching the disk in between. *)
Definition run : DBList T * World -> DBList T * World -> Prop := rtc step.

End Runs.

(** A context that is cancelled when the producer of [Iterator] starts
    round [k], and one whose [Done] channel wins the [select] from round
    [k] on. *)
Definition cancelled_from (k : Z) : Context :=
  mkContext (fun i => k <=? i) (fun _ => false).

Definition done_from (k : Z) : Context :=
  mkContext (fun _ => false) (fun i => k <=? i).


(** The list and the disk that one more [Add] leaves. *)
Definition after_Add (d : DBList Item) (item : Item) (w : World) : DBList Item :=
  (Add d item w).1.1.

Definition disk_after_Add (d : DBList Item) (item : Item) (w : World) : World :=
  (Add d item w).2.

(** The same disk, turned full. *)
Definition turned_full (w : World) : World :=
  mkWorld (files w) (dirs w) (fault full_disk).

(** An empty disk on which the file [key] cannot be created. *)
Definition create_refused_at (key : string) : World :=
  mkWorld ∅ ∅ (fun call k =>
    match call with
    | SysCreate =>
        if String.eqb k key then Some (errorString "permission denied") else None
    | _ => None
    end).

(** A list of capacity 1 holding IDs 1 and 2, the second in a record. *)
Definition two_items : DBList Item := list_after "data" 1 [1; 2] empty_disk.
Definition two_items_disk : World := disk_after "data" 1 [1; 2] empty_disk.

(** A list of capacity 1 holding IDs 3, 1 and 2, not sorted yet. *)
Definition three_items : DBList Item := list_after "data" 1 [3; 1; 2] empty_disk.
Definition three_items_disk : World := disk_after "data" 1 [3; 1; 2] empty_disk.

(** * Proofs *)

(** ** The sort *)

Section SliceStable_facts.
Context {A : Type}.
Implicit Types (x l r : list A) (less : list A -> Z -> Z -> result bool).

Lemma swap_adjacent l1 u v l2 :
  swap (l1 ++ u :: v :: l2) (S (length l1)) (length l1) = l1 ++ v :: u :: l2.
Proof.
  unfold swap.
  rewrite (lookup_app_r l1) by lia. rewrite (lookup_app_r l1) by lia.
  replace (S (length l1) - length l1)%nat with 1%nat by lia.
  rewrite Nat.sub_diag. cbn [lookup list_lookup].
  rewrite (insert_app_r_alt l1) by lia. rewrite Nat.sub_diag. cbn [insert list_insert].
  rewrite (insert_app_r_alt l1) by lia.
  replace (S (length l1) - length l1)%nat with 1%nat by lia. reflexivity.
Qed.

Lemma swap_Permutation x n : swap x (S n) n ≡ₚ x.
Proof.
  destruct (x !! S n) as [v|] eqn:Hv; [|unfold swap; by rewrite Hv].
  destruct (x !! n) as [u|] eqn:Hu; [|unfold swap; by rewrite Hv, Hu].
  assert (exists l1 l2, x = l1 ++ u :: v :: l2 /\ length l1 = n)
    as (l1 & l2 & -> & <-).
  { exists (take n x), (drop (S (S n)) x). split.
    - rewrite <- (take_drop_middle x n u Hu) at 1. f_equal. f_equal.
      apply drop_S. done.
    - apply length_take_le. apply lookup_lt_Some in Hu. lia. }
  rewrite swap_adjacent. apply Permutation_app_head. apply perm_swap.
Qed.

Lemma insertionSort_inner_Permutation less a k x x' :
  insertionSort_inner less a k x = Done x' -> x ≡ₚ x'.
Proof.
  revert x. induction k as [|k IH]; intros x; cbn [insertionSort_inner].
  { by intros [= <-]. }
  destruct (less x _ _) as [[|]|]; cbn; try discriminate.
  - intros Hx. apply IH in Hx. rewrite <- Hx.
    replace (a + S k)%nat with (S (a + k)) by lia.
    replace (S (a + k) - 1)%nat with (a + k)%nat by lia.
    symmetry. apply swap_Permutation.
  - by intros [= <-].
Qed.

Lemma insertionSort_outer_Permutation less a i n x x' :
  insertionSort_outer less a i n x = Done x' -> x ≡ₚ x'.
Proof.
  revert i x. induction n as [|n IH]; intros i x; cbn [insertionSort_outer].
  { by intros [= <-]. }
  destruct (insertionSort_inner less a (i - a) x) as [x1|] eqn:Hin; cbn; [|discriminate].
  intros Hx. apply IH in Hx. apply insertionSort_inner_Permutation in Hin.
  by rewrite Hin.
Qed.

Lemma sort_SliceStable_Permutation x less x' :
  sort_SliceStable x less = Done x' -> x ≡ₚ x'.
Proof. apply insertionSort_outer_Permutation. Qed.

(** *** The in-place sort computes [insertion_sorted] *)

Section With_values.
Variable lt : A -> A -> bool.
Variable valid : A -> Prop.
Variable less : list A -> Z -> Z -> result bool.
Hypothesis less_values : forall s (i j : nat) a b,
  s !! i = Some a -> s !! j = Some b -> valid a -> valid b ->
  less s (Z.of_nat i) (Z.of_nat j) = Done (lt a b).

Lemma insert_back_valid y r :
  valid y -> Forall valid r -> Forall valid (insert_back lt y r).
Proof.
  intros Hy. induction 1 as [|z r Hz Hr IH]; cbn.
  - by constructor.
  - destruct (lt y z); repeat constructor; auto.
Qed.

Lemma insertionSort_inner_spec r y rest :
  valid y -> Forall valid r ->
  insertionSort_inner less 0 (length r) (rev r ++ y :: rest)
  = Done (rev (insert_back lt y r) ++ rest).
Proof.
  intros Hy Hr. revert rest. induction Hr as [|z r Hz Hr IH]; intros rest.
  { reflexivity. }
  cbn [length insertionSort_inner insert_back].
  replace (Z.of_nat (0 + S (length r)) - 1) with (Z.of_nat (length r)) by lia.
  rewrite (less_values _ _ _ y z); try done.
  - cbn. destruct (lt y z).
    + replace (0 + S (length r) - 1)%nat with (length r) by lia.
      cbn [rev Nat.add]. rewrite <- (length_rev r), <- app_assoc. cbn [app].
      rewrite ?Nat.sub_0_r. rewrite swap_adjacent. rewrite length_rev, IH.
      by rewrite <- app_assoc.
    + cbn [rev]. by rewrite <- !app_assoc.
  - cbn [rev]. rewrite <- app_assoc. cbn [app].
    rewrite lookup_app_r; rewrite length_rev; [|lia].
    by replace (0 + S (length r) - length r)%nat with 1%nat by lia.
  - cbn [rev]. rewrite <- app_assoc. cbn [app].
    rewrite lookup_app_r; rewrite length_rev; [|lia].
    by rewrite Nat.sub_diag.
Qed.

Lemma insertionSort_outer_spec r rest :
  Forall valid r -> Forall valid rest ->
  insertionSort_outer less 0 (length r) (length rest) (rev r ++ rest)
  = Done (rev (fold_left (fun r y => insert_back lt y r) rest r)).
Proof.
  intros Hr Hrest. revert r Hr.
  induction Hrest as [|y rest Hy Hrest IH]; intros r Hr.
  { cbn. by rewrite app_nil_r. }
  cbn [length insertionSort_outer fold_left]. rewrite Nat.sub_0_r.
  rewrite insertionSort_inner_spec by done. cbn.
  specialize (IH (insert_back lt y r) (insert_back_valid y r Hy Hr)).
  assert (length (insert_back lt y r) = S (length r)) as Hlen.
  { clear. induction r as [|z r IH]; cbn; [done|]. destruct (lt y z); cbn; lia. }
  rewrite Hlen in IH. exact IH.
Qed.

Lemma sort_SliceStable_spec x :
  Forall valid x ->
  sort_SliceStable x less = Done (insertion_sorted lt x).
Proof.
  intros Hx. unfold sort_SliceStable, insertionSort, insertion_sorted.
  destruct Hx as [|y x Hy Hx]; [reflexivity|].
  cbn [length]. replace (S (length x) - 1)%nat with (length x) by lia.
  cbn [fold_left insert_back].
  apply (insertionSort_outer_spec [y] x); [by repeat constructor|done].
Qed.

End With_values.
End SliceStable_facts.

Section Before.
Context {A : Type}.
Implicit Types (l r : list A) (a b : A).

Lemma before_nil a b : ~ before (@nil A) a b.
Proof. intros (i & j & _ & Hi & _). by rewrite lookup_nil in Hi. Qed.

Lemma before_cons y l a b :
  before (y :: l) a b <-> (a = y /\ b ∈ l) \/ before l a b.
Proof.
  split.
  - intros (i & j & Hij & Hi & Hj). destruct j as [|j]; [lia|].
    cbn in Hj. destruct i as [|i].
    + left. cbn in Hi. split; [congruence|]. apply list_elem_of_lookup. eauto.
    + right. exists i, j. cbn in Hi. split_and!; [lia|done|done].
  - intros [[-> Hb]|(i & j & Hij & Hi & Hj)].
    + apply list_elem_of_lookup in Hb as [j Hj]. exists 0%nat, (S j).
      split_and!; [lia|done|done].
    + exists (S i), (S j). split_and!; [lia|done|done].
Qed.

Lemma before_elem_of l a b : before l a b -> a ∈ l /\ b ∈ l.
Proof.
  intros (i & j & _ & Hi & Hj). split; apply list_elem_of_lookup; eauto.
Qed.

Lemma before_app l1 l2 a b :
  before (l1 ++ l2) a b <->
  before l1 a b \/ before l2 a b \/ (a ∈ l1 /\ b ∈ l2).
Proof.
  induction l1 as [|y l1 IH]; cbn [app].
  - split; [tauto|]. intros [H|[H|[H _]]]; [by apply before_nil in H|done|].
    by apply elem_of_nil in H.
  - rewrite !before_cons, IH, elem_of_app, elem_of_cons. tauto.
Qed.

Lemma elem_of_rev a l : a ∈ rev l <-> a ∈ l.
Proof. rewrite !list_elem_of_In. symmetry. apply in_rev. Qed.

Lemma before_rev l a b : before (rev l) a b <-> before l b a.
Proof.
  revert a b. induction l as [|y l IH]; intros a b; cbn [rev].
  - split; intros H; by apply before_nil in H.
  - rewrite before_app, IH, elem_of_rev, (before_cons y l), list_elem_of_singleton.
    split.
    + intros [H|[H|[H1 ->]]]; [tauto| |tauto].
      apply before_cons in H as [[_ H]|H]; [by apply elem_of_nil in H|].
      by apply before_nil in H.
    + intros [[-> H]|H]; tauto.
Qed.

Lemma before_asym l a b : NoDup l -> before l a b -> before l b a -> False.
Proof.
  intros Hnd (i & j & Hij & Hi & Hj) (i' & j' & Hij' & Hi' & Hj').
  pose proof (NoDup_lookup l i j' a Hnd Hi Hj').
  pose proof (NoDup_lookup l j i' b Hnd Hj Hi'). lia.
Qed.

Lemma before_total l a b :
  a ∈ l -> b ∈ l -> a <> b -> before l a b \/ before l b a.
Proof.
  intros [i Hi]%list_elem_of_lookup [j Hj]%list_elem_of_lookup Hne.
  destruct (Nat.lt_trichotomy i j) as [Hlt|[->|Hlt]].
  - left. by exists i, j.
  - congruence.
  - right. by exists j, i.
Qed.

Lemma before_Permutation_stable l l' a b :
  NoDup l -> l ≡ₚ l' ->
  (before l' b a -> before l b a) ->
  before l a b -> before l' a b.
Proof.
  intros Hnd Hp Hinv Hab.
  destruct (before_elem_of _ _ _ Hab) as [Ha Hb].
  assert (a <> b) as Hne.
  { intros ->. by apply (before_asym l b b). }
  rewrite Hp in Ha, Hb.
  destruct (before_total l' a b Ha Hb Hne) as [H|H]; [done|].
  destruct (before_asym l a b Hnd Hab (Hinv H)).
Qed.

Variable lt : A -> A -> bool.

Lemma insert_back_Permutation y r : insert_back lt y r ≡ₚ y :: r.
Proof.
  induction r as [|z r IH]; cbn; [done|].
  destruct (lt y z); [|done]. rewrite IH. apply perm_swap.
Qed.

Lemma insertion_fold_Permutation x r :
  fold_left (fun r y => insert_back lt y r) x r ≡ₚ x ++ r.
Proof.
  revert r. induction x as [|y x IH]; intros r; cbn [fold_left app]; [done|].
  rewrite IH, insert_back_Permutation. by rewrite Permutation_middle.
Qed.

Lemma insertion_sorted_Permutation x : insertion_sorted lt x ≡ₚ x.
Proof.
  unfold insertion_sorted. rewrite <- Permutation_rev.
  rewrite insertion_fold_Permutation. by rewrite app_nil_r.
Qed.

(** [insert_back] only moves [y] past elements that [y] is less than. *)
Lemma insert_back_before y r a b :
  before (insert_back lt y r) a b ->
  before (y :: r) a b \/ (b = y /\ lt y a = true).
Proof.
  revert a b. induction r as [|z r IH]; intros a b; cbn [insert_back]; [tauto|].
  destruct (lt y z) eqn:Hyz; [|tauto].
  rewrite before_cons. intros [[-> Hb]|Hab].
  - rewrite insert_back_Permutation in Hb. apply elem_of_cons in Hb as [->|Hb].
    + right. done.
    + left. rewrite !before_cons. tauto.
  - apply IH in Hab as [Hab|Hab]; [|tauto].
    left. rewrite !before_cons in *. rewrite elem_of_cons. tauto.
Qed.

Lemma insertion_fold_before x r a b :
  before (fold_left (fun r y => insert_back lt y r) x r) a b ->
  before (rev x ++ r) a b \/ lt b a = true.
Proof.
  revert r. induction x as [|y x IH]; intros r; cbn [fold_left rev]; [tauto|].
  intros [Hab|Hab]%IH; [|tauto].
  rewrite <- app_assoc. cbn [app].
  rewrite before_app in *.
  destruct Hab as [Hab|[Hab|[Ha Hb]]]; [tauto| |].
  - apply insert_back_before in Hab as [Hab|[-> Hab]]; tauto.
  - rewrite insert_back_Permutation in Hb. tauto.
Qed.

(** Whatever [lt] is, the sort puts [a] before [b] only if it found it
    there or [lt a b] holds. *)
Lemma insertion_sorted_before x a b :
  before (insertion_sorted lt x) a b -> before x a b \/ lt a b = true.
Proof.
  unfold insertion_sorted. rewrite before_rev.
  intros [Hab|Hab]%insertion_fold_before; [|tauto].
  rewrite app_nil_r, before_rev in Hab. tauto.
Qed.

Lemma insertion_sorted_stable x a b :
  NoDup x -> before x a b -> lt b a = false ->
  before (insertion_sorted lt x) a b.
Proof.
  intros Hnd Hab Hlt.
  apply (before_Permutation_stable x); [done | | | done].
  - symmetry. apply insertion_sorted_Permutation.
  - intros [H|H]%insertion_sorted_before; [done|congruence].
Qed.

(** *** Under a strict weak order the result is sorted *)

Hypothesis lt_swo : StrictWeakOrder lt.

Lemma swo_asym a b : lt a b = true -> lt b a = false.
Proof.
  intros Hab. destruct (lt b a) eqn:Hba; [|done].
  pose proof (swo_trans lt lt_swo a b a Hab Hba) as Haa.
  by rewrite (swo_irrefl lt lt_swo a) in Haa.
Qed.

Lemma swo_negative_trans a b c :
  lt a b = false -> lt b c = false -> lt a c = false.
Proof.
  intros Hab Hbc. destruct (lt a c) eqn:Hac; [|done].
  assert (lt b a = false) as Hba.
  { destruct (lt b a) eqn:Hba; [|done].
    by rewrite (swo_trans lt lt_swo b a c Hba Hac) in Hbc. }
  assert (lt c b = false) as Hcb.
  { destruct (lt c b) eqn:Hcb; [|done].
    by rewrite (swo_trans lt lt_swo a c b Hac Hcb) in Hab. }
  destruct (swo_incomparable_trans lt lt_swo a b c Hab Hba Hbc Hcb) as [Hac' _].
  congruence.
Qed.

Lemma insert_back_sorted y r :
  (forall u v, before r u v -> lt u v = false) ->
  forall u v, before (insert_back lt y r) u v -> lt u v = false.
Proof.
  induction r as [|z r IH]; intros Hr u v; cbn [insert_back].
  { intros [[_ Hv]|Huv]%before_cons; [by apply elem_of_nil in Hv|].
    by apply before_nil in Huv. }
  assert (forall u v, before r u v -> lt u v = false) as Hr'.
  { intros u' v' Huv. apply Hr, before_cons. by right. }
  destruct (lt y z) eqn:Hyz.
  - intros [[-> Hv]|Huv]%before_cons; [|by apply IH].
    rewrite insert_back_Permutation in Hv. apply elem_of_cons in Hv as [->|Hv].
    + by apply swo_asym.
    + apply Hr, before_cons. by left.
  - intros [[-> Hv]|Huv]%before_cons; [|by apply Hr].
    apply elem_of_cons in Hv as [->|Hv]; [done|].
    apply (swo_negative_trans _ z); [done|]. apply Hr, before_cons. by left.
Qed.

Lemma insertion_fold_sorted x r :
  (forall u v, before r u v -> lt u v = false) ->
  forall u v,
    before (fold_left (fun r y => insert_back lt y r) x r) u v -> lt u v = false.
Proof.
  revert r. induction x as [|y x IH]; intros r Hr; cbn [fold_left]; [done|].
  apply IH. by apply insert_back_sorted.
Qed.

(** No element of the result is less than one that stands before it. *)
Lemma insertion_sorted_sorted x a b :
  before (insertion_sorted lt x) a b -> lt b a = false.
Proof.
  unfold insertion_sorted. rewrite before_rev.
  apply insertion_fold_sorted. intros u v Huv. by apply before_nil in Huv.
Qed.

(** Two sorts that are both sorted and stable agree: the order of any two
    elements of the result is decided by [lt] and by the input. *)
Lemma before_determines l l' :
  NoDup l -> l ≡ₚ l' ->
  (forall a b, before l a b -> before l' a b) -> l = l'.
Proof.
  intros Hnd. revert l'. induction Hnd as [|a l Ha Hnd IH]; intros l' Hp Hb.
  { by apply Permutation_nil_l in Hp. }
  destruct l' as [|h l']; [by apply Permutation_nil_r in Hp|].
  assert (NoDup (h :: l')) as Hnd' by (rewrite <- Hp; by constructor).
  assert (h = a) as ->.
  { destruct (elem_of_cons l h a) as [Hin _].
    destruct Hin as [->|Hh]; [|done|].
    - rewrite Hp. by left.
    - exfalso. assert (before (h :: l') a h) as Hah.
      { apply Hb, before_cons. by left. }
      apply before_cons in Hah as [[-> _]|Hah].
      + done.
      + apply before_elem_of in Hah as [_ Hh']. by apply NoDup_cons in Hnd' as [? _]. }
  f_equal. apply IH; [by apply Permutation_cons_inv in Hp|].
  intros u v Huv. assert (before (a :: l') u v) as Huv'.
  { apply Hb, before_cons. by right. }
  apply before_cons in Huv' as [[-> _]|Huv']; [|done].
  by apply before_elem_of in Huv as [? _].
Qed.

Lemma stable_sort_unique x l :
  NoDup x -> x ≡ₚ l ->
  (forall a b, before l a b -> lt b a = false) ->
  (forall a b, before x a b -> lt b a = false -> before l a b) ->
  l = insertion_sorted lt x.
Proof.
  intros Hnd Hp Hsorted Hstable. symmetry.
  assert (NoDup l) as Hndl by by rewrite <- Hp.
  apply before_determines.
  - by rewrite insertion_sorted_Permutation.
  - by rewrite insertion_sorted_Permutation.
  - intros a b Hab.
    destruct (before_elem_of _ _ _ Hab) as [Ha Hb].
    rewrite insertion_sorted_Permutation in Ha, Hb.
    assert (a <> b) as Hne.
    { intros ->. eapply (before_asym (insertion_sorted lt x)); [|done|done].
      by rewrite insertion_sorted_Permutation. }
    rewrite Hp in Ha, Hb.
    destruct (before_total l a b Ha Hb Hne) as [|Hba]; [done|]. exfalso.
    pose proof (insertion_sorted_sorted _ _ _ Hab) as Hlt.
    pose proof (Hsorted _ _ Hba) as Hlt'.
    apply insertion_sorted_before in Hab as [Hab|Hab]; [|congruence].
    apply (before_asym l a b Hndl); [|done]. by apply Hstable.
Qed.

End Before.

Lemma StrictWeakOrder_on {A B : Type} (f : B -> A) (lt : A -> A -> bool) :
  StrictWeakOrder lt -> StrictWeakOrder (fun a b => lt (f a) (f b)).
Proof.
  intros [Hirr Htr Hinc]. split.
  - intros a. apply Hirr.
  - intros a b c. apply Htr.
  - intros a b c. apply Hinc.
Qed.

(** ** The representation invariant *)

Section Proofs.
Context {T : Type} `{!JSON T} `{!Filepath} `{!Runtime T}.
Implicit Types (d : DBList T) (w : World) (item : T).

Lemma NewDBList_inv path C d :
  NewDBList path C = Done d ->
  0 <= C /\ d = mkDBList [] path C 0 [] true.
Proof.
  unfold NewDBList, makeslice_cap_ok.
  destruct (Z.leb_spec 0 C); cbn [andb]; [|discriminate].
  destruct (_ && _); [|discriminate]. intros [= <-]. done.
Qed.

Lemma Add_inv d item w d' err w' :
  Add d item w = (d', err, w') ->
  (err = None /\ len (memoryData d) < maxInMemory d /\
   d' = Add_commit d (memoryData d ++ [item]) /\ w' = w) \/
  (err = None /\ maxInMemory d <= len (memoryData d) /\
   d' = Add_commit d (memoryData d) /\
   exists data, json_Marshal item = (data, None) /\
     files w' = <[recordPath (diskPath d) (totalCount d) := data]> (files w) /\
     fault w' = fault w) \/
  (exists e, err = Some e /\ maxInMemory d <= len (memoryData d) /\ d' = d).
Proof.
  unfold Add. destruct (Z.ltb_spec (len (memoryData d)) (maxInMemory d)).
  { intros [= <- <- <-]. left. done. }
  unfold filePathForIndex, os_MkdirAll.
  destruct (fault w SysMkdirAll _) as [e|] eqn:Hmk.
  { intros [= <- <- <-]. right. right. eauto. }
  destruct (json_Marshal item) as [data [e|]] eqn:Hjs.
  { intros [= <- <- <-]. right. right. eauto. }
  unfold os_Create; cbn [fault].
  destruct (fault w SysCreate _) as [e|] eqn:Hcr.
  { intros [= <- <- <-]. right. right. eauto. }
  unfold File_Write; cbn [fault].
  destruct (fault w SysWrite _) as [e|] eqn:Hwr.
  { intros [= <- <- <-]. right. right. eauto. }
  intros [= <- <- <-]. right. left. repeat split; [done|].
  exists data. cbn [files fault]. repeat split.
  apply insert_insert_eq.
Qed.

Lemma NewDBList_well_formed path C d :
  NewDBList path C = Done d -> well_formed d.
Proof.
  intros [HC ->]%NewDBList_inv. unfold well_formed, len; cbn.
  split_and!; [done|done|lia|done].
Qed.

Lemma Add_commit_well_formed d mem :
  well_formed d ->
  len mem = Z.min (totalCount d + 1) (maxInMemory d) ->
  well_formed (Add_commit d mem).
Proof.
  intros (Hlen & Hperm & Hmem & HC) Hmem'. unfold well_formed, len in *; cbn.
  assert (0 <= totalCount d) by lia.
  split_and!; [|  |done|done].
  - rewrite length_app; cbn. lia.
  - rewrite (seqZ_app 0 (totalCount d) 1) by lia.
    by rewrite Hperm, Z.add_0_l.
Qed.

Lemma Add_well_formed d item w d' err w' :
  well_formed d -> Add d item w = (d', err, w') -> well_formed d'.
Proof.
  intros Hwf Hadd. pose proof Hwf as (Hlen & Hperm & Hmem & HC).
  apply Add_inv in Hadd as [(_ & Hlt & -> & _)|[(_ & Hge & -> & _)|(e & _ & _ & ->)]];
    [| |done].
  - apply Add_commit_well_formed; [done|].
    unfold len in *. rewrite length_app; cbn. lia.
  - apply Add_commit_well_formed; [done|]. lia.
Qed.

Lemma Sort_inv d w compare d' :
  Sort d w compare = Done d' ->
  (isSorted d = true /\ d' = d) \/
  (isSorted d = false /\ exists s,
     sort_SliceStable (sortedIndexes d) (Sort_less d w compare) = Done s /\
     d' = mkDBList (memoryData d) (diskPath d) (maxInMemory d) (totalCount d) s true).
Proof.
  unfold Sort. destruct (isSorted d).
  { intros [= <-]. by left. }
  destruct (sort_SliceStable _ _) as [s|] eqn:Hs; cbn; [|discriminate].
  intros [= <-]. right. eauto.
Qed.

Lemma Sort_Permutation d w compare d' :
  Sort d w compare = Done d' -> sortedIndexes d ≡ₚ sortedIndexes d'.
Proof.
  intros [[_ ->]|(_ & s & Hs & ->)]%Sort_inv; [done|].
  by apply sort_SliceStable_Permutation in Hs.
Qed.

Lemma Sort_well_formed d w compare d' :
  well_formed d -> Sort d w compare = Done d' -> well_formed d'.
Proof.
  intros (Hlen & Hperm & Hmem & HC) HS.
  pose proof (Sort_Permutation _ _ _ _ HS) as Hp.
  apply Sort_inv in HS as [[_ ->]|(_ & s & Hs & ->)]; [done|].
  cbn in Hp. unfold well_formed, len in *; cbn.
  split_and!; [|by rewrite <- Hp|done|done].
  by rewrite <- Hp.
Qed.

Lemma reachable_well_formed d : reachable d -> well_formed d.
Proof.
  induction 1; eauto using NewDBList_well_formed, Add_well_formed, Sort_well_formed.
Qed.

Lemma well_formed_range d p :
  well_formed d -> p ∈ sortedIndexes d -> 0 <= p < totalCount d.
Proof.
  intros (_ & Hperm & _) Hp. rewrite Hperm in Hp. apply elem_of_seqZ in Hp. lia.
Qed.

Lemma well_formed_NoDup d : well_formed d -> NoDup (sortedIndexes d).
Proof. intros (_ & Hperm & _). rewrite Hperm. apply NoDup_seqZ. Qed.

Lemma well_formed_lookup d i :
  well_formed d -> 0 <= i < totalCount d ->
  exists p, sortedIndexes d !! Z.to_nat i = Some p /\ 0 <= p < totalCount d.
Proof.
  intros Hwf Hi. pose proof Hwf as (Hlen & _).
  destruct (lookup_lt_is_Some_2 (sortedIndexes d) (Z.to_nat i)) as [p Hp].
  { unfold len in Hlen. lia. }
  exists p. split; [done|]. apply (well_formed_range d p Hwf).
  apply list_elem_of_lookup. eauto.
Qed.

Lemma slice_index_Done {A} (s : list A) (i : nat) (x : A) :
  s !! i = Some x -> slice_index s (Z.of_nat i) = Done x.
Proof.
  intros Hx. unfold slice_index, len. pose proof (lookup_lt_Some _ _ _ Hx).
  destruct (Z.leb_spec 0 (Z.of_nat i)); [|lia].
  destruct (Z.ltb_spec (Z.of_nat i) (Z.of_nat (length s))); [|lia].
  cbn. by rewrite Nat2Z.id, Hx.
Qed.

Lemma slice_index_negative {A} (s : list A) (i : Z) :
  i < 0 -> slice_index s i = Panicked (IndexOutOfRange i (length s)).
Proof.
  intros Hi. unfold slice_index. by destruct (Z.leb_spec 0 i); [lia|].
Qed.

(** Above the memory buffer [getFromStorage] goes to the disk, below it
    and not below zero it reads the buffer: it cannot panic. *)
Lemma getFromStorage_memory d w p item :
  0 <= p -> memoryData d !! Z.to_nat p = Some item ->
  getFromStorage d w p = Done (item, None).
Proof.
  intros Hp Hitem. unfold getFromStorage. pose proof (lookup_lt_Some _ _ _ Hitem).
  destruct (Z.ltb_spec p (len (memoryData d))); [|unfold len in *; lia].
  rewrite <- (Z2Nat.id p) by done. by rewrite (slice_index_Done _ _ _ Hitem).
Qed.

Lemma getFromStorage_disk d w p :
  len (memoryData d) <= p ->
  getFromStorage d w p = Done (retrieveFromDisk d w p).
Proof.
  intros Hp. unfold getFromStorage.
  by destruct (Z.ltb_spec p (len (memoryData d))); [lia|].
Qed.

Lemma getFromStorage_Done d w p :
  0 <= p ->
  exists err, getFromStorage d w p = Done (materialized d w p, err).
Proof.
  intros Hp. unfold materialized.
  destruct (Z.lt_ge_cases p (len (memoryData d))) as [Hlt|Hge].
  - destruct (lookup_lt_is_Some_2 (memoryData d) (Z.to_nat p)) as [item Hitem].
    { unfold len in *. lia. }
    rewrite (getFromStorage_memory d w p item) by done. eauto.
  - rewrite getFromStorage_disk by done.
    destruct (retrieveFromDisk d w p) as [item err]. eauto.
Qed.

Lemma Sort_less_values d w compare cmp (s : list Z) (i j : nat) (a b : Z) :
  (forall x y, compare x y = Done (cmp x y)) ->
  s !! i = Some a -> s !! j = Some b -> 0 <= a -> 0 <= b ->
  Sort_less d w compare s (Z.of_nat i) (Z.of_nat j)
  = Done (cmp (materialized d w a) (materialized d w b)).
Proof.
  intros Hcmp Ha Hb Ha0 Hb0. unfold Sort_less.
  destruct (getFromStorage_Done d w a Ha0) as [erra HA].
  destruct (getFromStorage_Done d w b Hb0) as [errb HB].
  rewrite (slice_index_Done _ _ _ Ha); cbn. rewrite HA; cbn.
  rewrite (slice_index_Done _ _ _ Hb); cbn. rewrite HB; cbn.
  apply Hcmp.
Qed.

(** [Sort] on a well-formed list, with a [compare] that returns. *)
Lemma Sort_spec d w compare cmp :
  well_formed d -> (forall x y, compare x y = Done (cmp x y)) ->
  Sort d w compare = Done (
    if isSorted d then d
    else mkDBList (memoryData d) (diskPath d) (maxInMemory d) (totalCount d)
           (insertion_sorted
              (fun a b => cmp (materialized d w a) (materialized d w b))
              (sortedIndexes d))
           true).
Proof.
  intros Hwf Hcmp. unfold Sort. destruct (isSorted d); [done|].
  rewrite (sort_SliceStable_spec
             (fun a b => cmp (materialized d w a) (materialized d w b))
             (fun p => 0 <= p)); [done| |].
  - intros s i j a b Ha Hb Ha0 Hb0. by apply Sort_less_values.
  - apply Forall_forall. intros p Hp. by apply (well_formed_range d p Hwf).
Qed.

End Proofs.

(** ** The claims *)

Section Claims.
Context {T : Type} `{!JSON T} `{!Filepath} `{!Runtime T}.
Implicit Types (d : DBList T) (w : World) (item : T).

Lemma Adds_reachable d items w d' err w' :
  reachable d -> Adds d items w = (d', err, w') -> reachable d'.
Proof.
  revert d w. induction items as [|item items IH]; intros d w Hd; cbn [Adds].
  { by intros [= <- _ _]. }
  destruct (Add d item w) as [[d1 [e|]] w1] eqn:Hadd.
  - intros [= <- _ _]. by eapply reachable_Add.
  - apply IH. by eapply reachable_Add.
Qed.

(** C2. On every list a program can hold (so after every [Add], [Adds] and
    [Sort]; [Get] and [Size] change nothing) [sortedIndexes] has
    [totalCount] entries and is a permutation of the integers from [0] up
    to [totalCount - 1], without duplicate and without entry out of range.
    A successful [Add] appends the new physical position, a failed one
    changes nothing, and [Sort] permutes the entries; it returns whenever
    the comparator does. *)
Theorem sortedIndexes_is_permutation d :
  reachable d ->
  len (sortedIndexes d) = totalCount d /\
  sortedIndexes d ≡ₚ seqZ 0 (totalCount d) /\
  NoDup (sortedIndexes d) /\
  (forall p, p ∈ sortedIndexes d -> 0 <= p < totalCount d) /\
  (forall item w d' w', Add d item w = (d', None, w') ->
     sortedIndexes d' = sortedIndexes d ++ [totalCount d] /\
     totalCount d' = totalCount d + 1) /\
  (forall item w d' e w', Add d item w = (d', Some e, w') ->
     sortedIndexes d' = sortedIndexes d /\ totalCount d' = totalCount d) /\
  (forall items w d' err w', Adds d items w = (d', err, w') -> reachable d') /\
  (forall w compare d', Sort d w compare = Done d' ->
     sortedIndexes d ≡ₚ sortedIndexes d' /\ totalCount d' = totalCount d) /\
  (forall w (cmp : T -> T -> bool),
     exists d', Sort d w (fun x y => Done (cmp x y)) = Done d').
Proof.
  intros Hd. pose proof (reachable_well_formed d Hd) as Hwf.
  pose proof Hwf as (Hlen & Hperm & _).
  split_and!; [done|done|by apply well_formed_NoDup| | | | | |].
  - intros p. by apply well_formed_range.
  - intros item w d' w' Hadd.
    apply Add_inv in Hadd as [(_ & _ & -> & _)|[(_ & _ & -> & _)|(e & [=] & _)]]; done.
  - intros item w d' e w' Hadd.
    apply Add_inv in Hadd as [([=] & _)|[([=] & _)|(e' & _ & _ & ->)]]. done.
  - intros items w d' err w'. by apply Adds_reachable.
  - intros w compare d' HS. split; [by eapply Sort_Permutation|].
    apply Sort_inv in HS as [[_ ->]|(_ & s & _ & ->)]; done.
  - intros w cmp. eexists. by apply (Sort_spec d w _ cmp).
Qed.

(** C5. [Add] is all or nothing: when it returns an error the list is what
    it was before the call: [totalCount], [sortedIndexes], [isSorted] and
    [memoryData] are unchanged. *)
Theorem Add_all_or_nothing d item w d' e w' :
  Add d item w = (d', Some e, w') ->
  d' = d /\
  totalCount d' = totalCount d /\
  sortedIndexes d' = sortedIndexes d /\
  isSorted d' = isSorted d /\
  memoryData d' = memoryData d.
Proof.
  intros Hadd.
  apply Add_inv in Hadd as [([=] & _)|[([=] & _)|(e' & _ & _ & ->)]]. done.
Qed.

Lemma Sort_sets_flag d w compare d' :
  Sort d w compare = Done d' -> isSorted d' = true.
Proof. intros [[? ->]|(_ & s & _ & ->)]%Sort_inv; done. Qed.

Lemma Sort_flag_set d w compare :
  isSorted d = true -> Sort d w compare = Done d.
Proof. intros Hs. unfold Sort. by rewrite Hs. Qed.

(** C6. [Sort] is idempotent: a second [Sort] with the same comparator
    right after the first returns the list unchanged, [sortedIndexes]
    included.  When [isSorted] is set [Sort] changes nothing and compares
    nothing: it returns even with a comparator that panics whenever it is
    called. *)
Theorem Sort_idempotent d w compare d1 :
  Sort d w compare = Done d1 ->
  (forall w', exists d2, Sort d1 w' compare = Done d2 /\
                         sortedIndexes d2 = sortedIndexes d1 /\ d2 = d1) /\
  (forall d0 w0 compare0, isSorted d0 = true -> Sort d0 w0 compare0 = Done d0) /\
  (forall d0 w0, isSorted d0 = true ->
     Sort d0 w0 (fun _ _ => Panicked (PanicValue "compare was called")) = Done d0).
Proof.
  intros HS. split_and!.
  - intros w'. exists d1. split_and!; [|done|done].
    apply Sort_flag_set. by eapply Sort_sets_flag.
  - intros d0 w0 compare0. apply Sort_flag_set.
  - intros d0 w0. apply Sort_flag_set.
Qed.

(** C10. [isSorted] does not say which comparator was applied.  Once a
    [Sort] has completed, and until the next [Add], a [Sort] with any
    comparator returns at once and leaves [sortedIndexes] as it is.  The
    same holds on a new list, which starts with the flag set. *)
Theorem Sort_ignores_new_comparator d w compareA d1 :
  Sort d w compareA = Done d1 ->
  isSorted d1 = true /\
  (forall w' compareB, Sort d1 w' compareB = Done d1) /\
  (forall path maxInMemory d0 w0 compareB,
     NewDBList path maxInMemory = Done d0 -> Sort d0 w0 compareB = Done d0).
Proof.
  intros HS. pose proof (Sort_sets_flag _ _ _ _ HS) as Hflag.
  split_and!; [done| |].
  - intros w' compareB. by apply Sort_flag_set.
  - intros path C d0 w0 compareB [_ ->]%NewDBList_inv. done.
Qed.

Lemma Get_negative d w i :
  i < 0 ->
  Get d w i = Panicked (IndexOutOfRange i (length (sortedIndexes d))).
Proof.
  intros Hi. unfold Get, len.
  destruct (Z.geb_spec i (Z.of_nat (length (sortedIndexes d)))); [lia|].
  by rewrite slice_index_negative.
Qed.

(** C9, where the code departs from it.  [Get] tests [index >=
    len(d.sortedIndexes)] only: a negative index passes the test and
    [d.sortedIndexes[index]] panics, on every list. *)
Theorem Get_negative_index_panics d w i :
  i < 0 ->
  Get d w i = Panicked (IndexOutOfRange i (length (sortedIndexes d))).
Proof. apply Get_negative. Qed.

(** C3. On a list of [N] items [Get i] returns the index-out-of-range
    error exactly when [i >= N].  For [0 <= i < N] it looks up the
    physical position [p = sortedIndexes[i]]; below the length of
    [memoryData] it returns [memoryData[p]], otherwise it reads the record
    of [p]: a read failure comes back wrapped as a read error, a decoding
    failure wrapped as an unmarshal error, and a decoded item comes back
    without error. *)
Theorem Get_spec d w i :
  reachable d ->
  (Get d w i = Done (zero, Some (errorString "index out of range"))
   <-> totalCount d <= i) /\
  (0 <= i < totalCount d ->
   exists p, sortedIndexes d !! Z.to_nat i = Some p /\
     0 <= p < totalCount d /\
     Get d w i = getFromStorage d w p /\
     (p < len (memoryData d) ->
      exists item, memoryData d !! Z.to_nat p = Some item /\
                   Get d w i = Done (item, None)) /\
     (len (memoryData d) <= p ->
      match os_ReadFile (recordPath (diskPath d) p) w with
      | (_, Some err) =>
          Get d w i = Done (zero, Some (wrapError "failed to read from disk: " err))
      | (data, None) =>
          match json_Unmarshal data zero with
          | (item, Some err) =>
              Get d w i = Done (item, Some (wrapError "failed to unmarshal data: " err))
          | (item, None) => Get d w i = Done (item, None)
          end
      end)).
Proof.
  intros Hd. pose proof (reachable_well_formed d Hd) as Hwf.
  pose proof Hwf as (Hlen & _).
  assert (0 <= i < totalCount d ->
   exists p, sortedIndexes d !! Z.to_nat i = Some p /\
     0 <= p < totalCount d /\ Get d w i = getFromStorage d w p) as Hin.
  { intros Hi. destruct (well_formed_lookup d i Hwf Hi) as (p & Hp & Hrange).
    exists p. split_and!; [done|lia|lia|].
    unfold Get. destruct (Z.geb_spec i (len (sortedIndexes d))); [lia|].
    rewrite <- (Z2Nat.id i) at 1 by lia. by rewrite (slice_index_Done _ _ _ Hp). }
  assert (forall p, len (memoryData d) <= p ->
    match os_ReadFile (recordPath (diskPath d) p) w with
    | (_, Some err) =>
        getFromStorage d w p
        = Done (zero, Some (wrapError "failed to read from disk: " err))
    | (data, None) =>
        match json_Unmarshal data zero with
        | (item, Some err) =>
            getFromStorage d w p
            = Done (item, Some (wrapError "failed to unmarshal data: " err))
        | (item, None) => getFromStorage d w p = Done (item, None)
        end
    end) as Hdisk.
  { intros p Hp. rewrite getFromStorage_disk by done.
    unfold retrieveFromDisk, filePathForIndex, recordPath, fmt_Errorf_w.
    destruct (os_ReadFile _ w) as [data [err|]]; [done|].
    by destruct (json_Unmarshal data zero) as [item [err|]]. }
  split.
  - split.
    + intros HG. destruct (Z.le_gt_cases (totalCount d) i) as [|Hlt]; [done|].
      exfalso. destruct (Z.lt_ge_cases i 0) as [Hneg|Hpos].
      { by rewrite Get_negative in HG. }
      destruct Hin as (p & Hp & Hrange & HGet); [lia|]. rewrite HGet in HG.
      destruct (Z.lt_ge_cases p (len (memoryData d))) as [Hmem|Hdsk].
      * destruct (lookup_lt_is_Some_2 (memoryData d) (Z.to_nat p)) as [item Hitem].
        { unfold len in *. lia. }
        rewrite (getFromStorage_memory d w p item) in HG by (done || lia).
        discriminate.
      * specialize (Hdisk p Hdsk).
        destruct (os_ReadFile _ w) as [data [err|]].
        { rewrite Hdisk in HG. discriminate. }
        destruct (json_Unmarshal data zero) as [item [err|]];
          rewrite Hdisk in HG; discriminate.
    + intros Hi. unfold Get, fmt_Errorf.
      by destruct (Z.geb_spec i (len (sortedIndexes d))); [|lia].
  - intros Hi. destruct (Hin Hi) as (p & Hp & Hrange & HGet).
    exists p. split_and!; [done|lia|lia|done| |].
    + intros Hmem.
      destruct (lookup_lt_is_Some_2 (memoryData d) (Z.to_nat p)) as [item Hitem].
      { unfold len in *. lia. }
      exists item. split; [done|]. rewrite HGet.
      apply getFromStorage_memory; [lia|done].
    + intros Hdsk. rewrite HGet. by apply Hdisk.
Qed.

End Claims.

(** ** Insertion *)

Section Insertion.
Context {T : Type} `{!JSON T} `{!Filepath} `{!Runtime T}.
Implicit Types (d : DBList T) (w : World) (item : T).

(** The files after writing the records [ps], given as pairs of a
    physical position and the bytes, under the directory [path]. *)
Lemma written_lookup_ne (path : string) (fs : gmap string bytes)
    (ps : list (Z * bytes)) (key : string) :
  key ∉ (recordPath path ∘ fst <$> ps) ->
  foldl (fun fs '(p, data) => <[recordPath path p := data]> fs) fs ps !! key
  = fs !! key.
Proof.
  revert fs. induction ps as [|[p data] ps IH]; intros fs Hkey; cbn; [done|].
  rewrite fmap_cons, not_elem_of_cons in Hkey. destruct Hkey as [Hne Hkey].
  rewrite IH by done. by apply lookup_insert_ne.
Qed.

Lemma written_lookup (path : string) (fs : gmap string bytes)
    (ps : list (Z * bytes)) (i : nat) (p : Z) (data : bytes) :
  NoDup (recordPath path ∘ fst <$> ps) ->
  ps !! i = Some (p, data) ->
  foldl (fun fs '(p, data) => <[recordPath path p := data]> fs) fs ps
    !! recordPath path p = Some data.
Proof.
  revert fs i. induction ps as [|[q data'] ps IH]; intros fs i Hnd Hi; [done|].
  rewrite fmap_cons in Hnd. apply NoDup_cons in Hnd as [Hq Hnd].
  destruct i as [|i]; cbn in Hi |- *.
  - injection Hi as -> ->. rewrite written_lookup_ne by done.
    apply lookup_insert_eq.
  - by eapply IH.
Qed.

Lemma written_dom (path : string) (fs : gmap string bytes) (ps : list (Z * bytes)) :
  dom (foldl (fun fs '(p, data) => <[recordPath path p := data]> fs) fs ps)
  = dom fs ∪ list_to_set (recordPath path ∘ fst <$> ps).
Proof.
  revert fs. induction ps as [|[p data] ps IH]; intros fs; cbn.
  - by rewrite (right_id_L ∅ (∪)).
  - rewrite IH, dom_insert_L.
    by rewrite (comm_L (∪) {[_]} (dom fs)), <- (assoc_L (∪)).
Qed.

(** A run of [Add] that never fails, from any well-formed list. *)
Lemma Adds_spec d items w d' w' :
  well_formed d -> Adds d items w = (d', None, w') ->
  totalCount d' = totalCount d + len items /\
  memoryData d' = take (Z.to_nat (maxInMemory d)) (memoryData d ++ items) /\
  exists records : list bytes,
    Forall2 (fun item data => json_Marshal item = (data, None))
      (drop (Z.to_nat (maxInMemory d - totalCount d)) items) records /\
    files w' =
      foldl (fun fs '(p, data) => <[recordPath (diskPath d) p := data]> fs)
        (files w)
        (zip (seqZ (Z.max (totalCount d) (maxInMemory d)) (len records)) records).
Proof.
  revert d w. induction items as [|item items IH]; intros d w Hwf; cbn [Adds].
  { intros [= <- <-]. pose proof Hwf as (Hlen & _ & Hmem & HC).
    unfold len in *. cbn. split_and!; [lia| |].
    - rewrite app_nil_r, take_ge; [done|lia].
    - exists []. rewrite drop_nil. split; [constructor|done]. }
  destruct (Add d item w) as [[d1 [e|]] w1] eqn:Hadd; [discriminate|].
  intros HAdds. pose proof (Add_well_formed _ _ _ _ _ _ Hwf Hadd) as Hwf1.
  pose proof Hwf as (Hlen & _ & Hmem & HC).
  apply IH in HAdds as (Htc & Hmd & records & Hrec & Hfiles); [|done].
  unfold len in *. cbn [length].
  apply Add_inv in Hadd
    as [(_ & Hlt & -> & ->)|[(_ & Hge & -> & data & Hdata & Hw1 & _)|(? & [=] & _)]];
    cbn [Add_commit totalCount memoryData maxInMemory diskPath] in *;
    unfold len in *.
  - split_and!; [lia| |].
    + by rewrite Hmd, <- app_assoc.
    + exists records. split.
      * replace (Z.to_nat (maxInMemory d - totalCount d))
          with (S (Z.to_nat (maxInMemory d - (totalCount d + 1)))) by lia.
        done.
      * rewrite Hfiles. do 3 f_equal. lia.
  - split_and!; [lia| |].
    + rewrite Hmd. rewrite !take_app_le by lia. done.
    + exists (data :: records). split.
      * replace (Z.to_nat (maxInMemory d - totalCount d)) with 0%nat by lia.
        replace (Z.to_nat (maxInMemory d - (totalCount d + 1))) with 0%nat in Hrec by lia.
        by constructor.
      * rewrite Hfiles, Hw1. cbn [length].
        replace (totalCount d `max` maxInMemory d) with (totalCount d) by lia.
        replace ((totalCount d + 1) `max` maxInMemory d)
          with (Z.succ (totalCount d)) by lia.
        rewrite (seqZ_cons (totalCount d)) by lia.
        replace (Z.pred (Z.of_nat (S (length records))))
          with (Z.of_nat (length records)) by lia.
        done.
Qed.

(** C1. On every new list, of a capacity [C] that is then not negative,
    after [N] successful [Add] calls [Size] is [N], [memoryData] holds the
    first [C] items in insertion order, [min N C] of them, and the other
    [max 0 (N - C)] items were written as records: the disk holds the files
    it held plus the record of every position from [C] up to [N - 1], each
    with the encoding of its item.  When the paths of distinct positions
    are distinct, these are [max 0 (N - C)] distinct files and the file of
    each position holds its item. *)
Theorem Adds_on_new_list (path : string) (C : Z) (d0 : DBList T) :
  NewDBList path C = Done d0 ->
  0 <= C /\
  forall (items : list T) w0 d w,
    Adds d0 items w0 = (d, None, w) ->
    let N := len items in
    Size d = N /\
    memoryData d = take (Z.to_nat C) items /\
    len (memoryData d) = Z.min N C /\
    exists records : list bytes,
      len records = Z.max 0 (N - C) /\
      Forall2 (fun item data => json_Marshal item = (data, None))
        (drop (Z.to_nat C) items) records /\
      files w =
        foldl (fun fs '(p, data) => <[recordPath path p := data]> fs)
          (files w0) (zip (seqZ C (N - C)) records) /\
      dom (files w) =
        dom (files w0) ∪ list_to_set (recordPath path <$> seqZ C (N - C)) /\
      ((forall p q, recordPath path p = recordPath path q -> p = q) ->
       NoDup (recordPath path <$> seqZ C (N - C)) /\
       forall (k : nat) data,
         records !! k = Some data ->
         files w !! recordPath path (C + Z.of_nat k) = Some data).
Proof.
  intros Hnew. pose proof (NewDBList_well_formed path C d0 Hnew) as Hwf0.
  apply NewDBList_inv in Hnew as [HC ->]. split; [exact HC|].
  intros items w0 d w HAdds; cbv zeta. set (N := len items).
  apply Adds_spec in HAdds as (Htc & Hmd & records & Hrec & Hfiles); [|exact Hwf0].
  cbn [totalCount memoryData maxInMemory diskPath app] in *.
  rewrite Z.sub_0_r in Hrec.
  replace (0 `max` C) with C in Hfiles by lia.
  pose proof (Forall2_length _ _ _ Hrec) as Hlen. rewrite length_drop in Hlen.
  assert (len records = Z.max 0 (N - C)) as Hn by (unfold N, len in *; lia).
  assert (seqZ C (len records) = seqZ C (N - C)) as Hseq.
  { rewrite Hn. destruct (Z.max_spec 0 (N - C)) as [[? ->]|[? ->]]; [done|].
    unfold seqZ. by replace (Z.to_nat (N - C)) with 0%nat by lia. }
  rewrite Hseq in Hfiles.
  assert (recordPath path ∘ fst <$> zip (seqZ C (N - C)) records
          = recordPath path <$> seqZ C (N - C)) as Hfst.
  { rewrite list_fmap_compose. f_equal. apply fst_zip.
    rewrite length_seqZ. unfold len in Hn. lia. }
  split_and!.
  - unfold Size. lia.
  - done.
  - rewrite Hmd. unfold len, N. rewrite length_take. unfold len. lia.
  - exists records. split_and!; [done|done|done| |].
    + by rewrite Hfiles, written_dom, Hfst.
    + intros Hinj.
      assert (NoDup (recordPath path <$> seqZ C (N - C))) as Hnd.
      { apply NoDup_fmap_2; [|apply NoDup_seqZ]. intros p q. apply Hinj. }
      split; [done|]. intros k data Hk. rewrite Hfiles.
      apply (written_lookup path _ _ k); [by rewrite Hfst|].
      apply lookup_zip_with_Some. exists (C + Z.of_nat k), data.
      split_and!; [done| |done].
      apply lookup_seqZ. split; [done|]. apply lookup_lt_Some in Hk.
      unfold len in Hn. lia.
Qed.

End Insertion.

(** ** Iteration *)

Section Iteration.
Context {T : Type} `{!JSON T} `{!Filepath} `{!Runtime T}.
Implicit Types (d : DBList T) (w : World) (item : T).

(** In range [Get] is [getFromStorage] at the physical position, and
    returns. *)
Lemma Get_in_range d w i :
  well_formed d -> 0 <= i < totalCount d ->
  exists p, sortedIndexes d !! Z.to_nat i = Some p /\ 0 <= p < totalCount d /\
            Get d w i = getFromStorage d w p /\
            exists item err, Get d w i = Done (item, err).
Proof.
  intros Hwf Hi. pose proof Hwf as (Hlen & _).
  destruct (well_formed_lookup d i Hwf Hi) as (p & Hp & Hrange).
  assert (Get d w i = getFromStorage d w p) as HGet.
  { unfold Get. destruct (Z.geb_spec i (len (sortedIndexes d))); [lia|].
    rewrite <- (Z2Nat.id i) at 1 by lia. by rewrite (slice_index_Done _ _ _ Hp). }
  exists p. split_and!; [done|lia|lia|done|].
  rewrite HGet. destruct (getFromStorage_Done d w p) as [err Hp']; [lia|]. eauto.
Qed.

Lemma Get_fails_item d w i :
  Get_fails d w i = false <-> is_Some (Get_item d w i).
Proof.
  unfold Get_fails, Get_item.
  destruct (Get d w i) as [[item [err|]]|]; split; intros Hx;
    try done; try by destruct Hx.
Qed.

Lemma Iterator_loop_spec d w (fuel : nat) (i : Z) :
  well_formed d -> 0 <= i -> Z.of_nat fuel = totalCount d - i ->
  Iterator_loop d w context_Background fuel i
  = Done (omap (Get_item d w) (seqZ i (Z.of_nat fuel)),
          Iterator_log <$> filter (fun k => Get_fails d w k = true)
                             (seqZ i (Z.of_nat fuel))).
Proof.
  intros Hwf. revert i. induction fuel as [|fuel IH]; intros i Hi Hfuel.
  { reflexivity. }
  cbn [Iterator_loop context_Background ctx_Err ctx_Done].
  destruct (Z.ltb_spec i (totalCount d)); [|lia].
  rewrite (seqZ_cons i) by lia.
  replace (Z.pred (Z.of_nat (S fuel))) with (Z.of_nat fuel) by lia.
  destruct (Get_in_range d w i Hwf) as (_ & _ & _ & _ & item & err & HGet); [lia|].
  rewrite HGet; cbn. rewrite IH by lia. cbn.
  replace (Z.succ i) with (i + 1) by lia.
  assert (Get_fails d w i = match err with Some _ => true | None => false end)
    as Hf by (unfold Get_fails; rewrite HGet; by destruct err).
  assert (Get_item d w i = match err with Some _ => None | None => Some item end)
    as -> by (unfold Get_item; rewrite HGet; by destruct err).
  destruct err as [err|]; cbn.
  - rewrite decide_True by done. done.
  - rewrite decide_False by (rewrite Hf; done). done.
Qed.

Lemma failing_indices d w (S : gset Z) (l : list Z) :
  (forall i, i ∈ l -> (i ∈ S <-> Get_fails d w i = true)) ->
  filter (fun k => Get_fails d w k = true) l = filter (fun k => k ∈ S) l /\
  Some <$> omap (Get_item d w) l = Get_item d w <$> filter (fun k => k ∉ S) l /\
  (length (omap (Get_item d w) l) + length (filter (fun k => k ∈ S) l))%nat
  = length l.
Proof.
  induction l as [|i l IH]; intros HS; [done|].
  destruct IH as (IH1 & IH2 & IH3).
  { intros k Hk. apply HS. by right. }
  assert (i ∈ S <-> Get_fails d w i = true) as Hi by (apply HS; by left).
  rewrite !filter_cons. cbn [omap list_omap].
  destruct (Get_fails d w i) eqn:Hf.
  - assert (i ∈ S) as HiS by by apply Hi.
    assert (Get_item d w i = None) as ->.
    { destruct (Get_item d w i) eqn:Hitem; [|done].
      assert (Get_fails d w i = false); [|congruence].
      apply Get_fails_item. by rewrite Hitem. }
    rewrite decide_True by done. rewrite decide_True by done.
    rewrite decide_False by (intros Hn; by apply Hn).
    cbn. split_and!; [by f_equal|done|lia].
  - assert (i ∉ S) as HiS by (rewrite Hi; done).
    destruct (proj1 (Get_fails_item d w i) Hf) as [item Hitem]. rewrite Hitem.
    rewrite decide_False by done. rewrite decide_False by done.
    rewrite decide_True by done.
    cbn. split_and!; [done|by rewrite Hitem, IH2|lia].
Qed.

(** C8. With a context that is never cancelled, a consumer that takes
    every item and nothing else touching the list: when [Get] fails
    exactly at the logical indices in [S], the iterator sends, in
    ascending order of the index, exactly the items that [Get] returns
    for the indices outside [S], [N - |S|] of them, and logs one line for
    each index in [S], in ascending order.  It does not panic. *)
Theorem Iterator_skips_failures d w (S : gset Z) :
  reachable d ->
  (forall i, i ∈ S <-> 0 <= i < totalCount d /\ Get_fails d w i = true) ->
  exists sent logged,
    Iterator d w context_Background = Done (sent, logged) /\
    Some <$> sent
      = Get_item d w <$> filter (fun i => i ∉ S) (seqZ 0 (totalCount d)) /\
    logged = Iterator_log <$> filter (fun i => i ∈ S) (seqZ 0 (totalCount d)) /\
    len sent = totalCount d - Z.of_nat (size S) /\
    len logged = Z.of_nat (size S).
Proof.
  intros Hd HS. pose proof (reachable_well_formed d Hd) as Hwf.
  pose proof Hwf as (Hlen & _). unfold len in Hlen.
  assert (0 <= totalCount d) as HN by lia.
  destruct (failing_indices d w S (seqZ 0 (totalCount d))) as (H1 & H2 & H3).
  { intros i Hi. apply elem_of_seqZ in Hi. rewrite HS. intuition lia. }
  assert (size S = length (filter (fun k => k ∈ S) (seqZ 0 (totalCount d)))) as Hsize.
  { rewrite <- (size_list_to_set (C := gset Z)) by apply NoDup_filter, NoDup_seqZ.
    f_equal. apply set_eq. intros i.
    rewrite elem_of_list_to_set, list_elem_of_filter, elem_of_seqZ, HS.
    intuition lia. }
  eexists _, _. split.
  { unfold Iterator. rewrite (Iterator_loop_spec d w) by (done || lia).
    rewrite Z2Nat.id by done. reflexivity. }
  rewrite length_seqZ in H3. unfold len.
  split_and!; [done|by rewrite H1| |].
  - lia.
  - rewrite H1, length_fmap. lia.
Qed.

End Iteration.

(** ** Sorting *)

Section Sorting.
Context {T : Type} `{!JSON T} `{!Filepath} `{!Runtime T}.
Implicit Types (d : DBList T) (w : World) (item : T).

Lemma before_seqZ (n p q : Z) : 0 <= p < q -> q < n -> before (seqZ 0 n) p q.
Proof.
  intros Hp Hq. exists (Z.to_nat p), (Z.to_nat q).
  split_and!; [lia| |]; apply lookup_seqZ; lia.
Qed.

(** C4, as the code has it.  [compare] is a strict weak order that
    returns.  [Sort] returns, and two items of which the second is not
    ordered before the first (so, in particular, two items that compare
    equal) keep the relative order they had in [sortedIndexes] before the
    call.  That order is the insertion order while [sortedIndexes] is
    still the identity.  When [isSorted] was not set the result is
    sorted: no item is ordered before one that precedes it.  The items are
    those that [getFromStorage] returns without error. *)
Theorem Sort_is_stable d w compare (cmp : T -> T -> bool) :
  reachable d ->
  (forall x y, compare x y = Done (cmp x y)) ->
  StrictWeakOrder cmp ->
  exists d', Sort d w compare = Done d' /\
    (forall p q itemP itemQ,
       getFromStorage d w p = Done (itemP, None) ->
       getFromStorage d w q = Done (itemQ, None) ->
       cmp itemQ itemP = false ->
       (before (sortedIndexes d) p q -> before (sortedIndexes d') p q) /\
       (sortedIndexes d = seqZ 0 (totalCount d) ->
        0 <= p < q -> q < totalCount d -> before (sortedIndexes d') p q)) /\
    (isSorted d = false ->
     forall p q itemP itemQ,
       getFromStorage d w p = Done (itemP, None) ->
       getFromStorage d w q = Done (itemQ, None) ->
       before (sortedIndexes d') p q -> cmp itemQ itemP = false).
Proof.
  intros Hd Hcmp Hswo. pose proof (reachable_well_formed d Hd) as Hwf.
  eexists. split; [by apply Sort_spec|].
  assert (forall p item, getFromStorage d w p = Done (item, None) ->
                         materialized d w p = item) as Hmat.
  { intros p item Hp. unfold materialized. by rewrite Hp. }
  split.
  - intros p q itemP itemQ HP HQ Hlt.
    assert (before (sortedIndexes d) p q ->
       before (sortedIndexes
         (if isSorted d then d
          else mkDBList (memoryData d) (diskPath d) (maxInMemory d) (totalCount d)
                 (insertion_sorted
                    (fun a b => cmp (materialized d w a) (materialized d w b))
                    (sortedIndexes d))
                 true)) p q) as Hstable.
    { intros Hpq. destruct (isSorted d); [done|]. cbn.
      apply insertion_sorted_stable; [by apply well_formed_NoDup|done|].
      by rewrite (Hmat p itemP), (Hmat q itemQ). }
    split; [done|].
    intros Hid Hp Hq. apply Hstable. rewrite Hid. by apply before_seqZ.
  - intros -> p q itemP itemQ HP HQ Hpq. cbn in Hpq.
    apply (insertion_sorted_sorted
             (fun a b => cmp (materialized d w a) (materialized d w b))) in Hpq.
    + by rewrite (Hmat p itemP), (Hmat q itemQ) in Hpq.
    + by apply (StrictWeakOrder_on (materialized d w)).
Qed.

(** What [Sort] returns does not depend on how the library sorts: any
    arrangement of [sortedIndexes] that is sorted and stable for
    [compare] is the one [Sort] leaves. *)
Lemma Sort_result_unique d w compare (cmp : T -> T -> bool) (s : list Z) :
  reachable d ->
  (forall x y, compare x y = Done (cmp x y)) ->
  StrictWeakOrder cmp ->
  isSorted d = false ->
  sortedIndexes d ≡ₚ s ->
  (forall p q, before s p q ->
     cmp (materialized d w q) (materialized d w p) = false) ->
  (forall p q, before (sortedIndexes d) p q ->
     cmp (materialized d w q) (materialized d w p) = false -> before s p q) ->
  exists d', Sort d w compare = Done d' /\ sortedIndexes d' = s.
Proof.
  intros Hd Hcmp Hswo Hflag Hperm Hsorted Hstable.
  pose proof (reachable_well_formed d Hd) as Hwf.
  eexists. split; [by apply Sort_spec|]. rewrite Hflag. cbn. symmetry.
  apply (stable_sort_unique
           (fun a b => cmp (materialized d w a) (materialized d w b))).
  - by apply (StrictWeakOrder_on (materialized d w)).
  - by apply well_formed_NoDup.
  - done.
  - done.
  - done.
Qed.

End Sorting.

(** ** The package at work on [Item] *)

Lemma list_of_reachable path C ids w d err w' :
  list_of path C ids w = Done (d, err, w') -> reachable d.
Proof.
  unfold list_of. destruct (NewDBList path C) as [d0|] eqn:Hnew; [|discriminate].
  cbn. intros [= HAdds].
  eapply Adds_reachable; [|done]. by eapply reachable_New.
Qed.

Lemma by_ID_StrictWeakOrder : StrictWeakOrder (fun a b : Item => ID a <? ID b).
Proof.
  split.
  - intros a. apply Z.ltb_irrefl.
  - intros a b c. rewrite !Z.ltb_lt. lia.
  - intros a b c. rewrite !Z.ltb_ge. lia.
Qed.

Lemma string_app_cons (x : ascii) (a b : string) :
  String x a +:+ b = String x (a +:+ b).
Proof. reflexivity. Qed.

Lemma string_app_length (a b : string) :
  String.length (a +:+ b) = (String.length a + String.length b)%nat.
Proof.
  induction a as [|x a IH]; [done|].
  rewrite string_app_cons. cbn [String.length]. by rewrite IH.
Qed.

Lemma string_app_inj_l (a b c : string) : a +:+ c = b +:+ c -> a = b.
Proof.
  intros Hab. assert (String.length a = String.length b) as Hlen.
  { apply (f_equal String.length) in Hab. rewrite !string_app_length in Hab. lia. }
  revert b Hab Hlen. induction a as [|x a IH]; intros [|y b]; try done.
  rewrite !string_app_cons. intros [= -> Hab] [= Hlen]. f_equal. auto.
Qed.

Lemma unix_recordPath_inj (path : string) (p q : Z) :
  recordPath path p = recordPath path q -> p = q.
Proof.
  unfold recordPath, fmt_d; cbn [filepath_Join unix_Filepath]. unfold unix_Join.
  intros Hpq. apply (inj pretty). apply (string_app_inj_l _ _ ".json").
  destruct path; [done|]. by apply String.app_inj in Hpq; apply String.app_inj in Hpq.
Qed.

Lemma list_after_reachable path C ids w :
  0 <= C <= 2 ^ 45 -> reachable (list_after path C ids w).
Proof.
  intros HC. unfold list_after.
  destruct (list_of path C ids w) as [[[d err] w']|p] eqn:Hl.
  - by eapply list_of_reachable.
  - unfold list_of, NewDBList, makeslice_cap_ok in Hl.
    cbn [sizeof_elem sizeof_int maxAlloc Item_Runtime] in Hl.
    destruct (Z.leb_spec 0 C); [|lia].
    destruct (Z.leb_spec (8 * C) (2 ^ 48)) as [|Hbig]; [done|].
    change (2 ^ 48) with (8 * 2 ^ 45) in Hbig. lia.
Qed.

Lemma sorted_after_reachable d w compare :
  reachable d -> reachable (sorted_after d w compare).
Proof.
  intros Hd. unfold sorted_after. destruct (Sort d w compare) eqn:HS; [|done].
  by eapply reachable_Sort.
Qed.

Lemma sorted_then_grown_reachable : reachable sorted_then_grown.
Proof.
  unfold sorted_then_grown.
  destruct (Add _ (mkItem 3) empty_disk) as [[d' e] w'] eqn:Hadd. cbn.
  eapply reachable_Add; [|exact Hadd].
  apply sorted_after_reachable, list_after_reachable. lia.
Qed.

Lemma all_equal_StrictWeakOrder : StrictWeakOrder (fun _ _ : Item => false).
Proof. by split. Qed.

(** *** The tests of the package, run on the model *)

(** [TestDBList_Add] *)
Example TestDBList_Add :
  len (memoryData (list_after "tmp" 2 [1; 2; 3] empty_disk)) = 2 /\
  is_Some (files (disk_after "tmp" 2 [1; 2; 3] empty_disk) !! "tmp/2.json").
Proof. split; [reflexivity|]. eexists. vm_compute. reflexivity. Qed.

(** [TestDBList_Adds] *)
Example TestDBList_Adds :
  Size (list_after "tmp" 3 [1; 2; 3; 4; 5] empty_disk) = 5.
Proof. reflexivity. Qed.

(** [TestDBList_Get]: the first item comes from memory, the second from
    its record. *)
Example TestDBList_Get :
  Get (list_after "tmp" 1 [1; 2] empty_disk) (disk_after "tmp" 1 [1; 2] empty_disk) 0
  = Done (mkItem 1, None) /\
  Get (list_after "tmp" 1 [1; 2] empty_disk) (disk_after "tmp" 1 [1; 2] empty_disk) 1
  = Done (mkItem 2, None).
Proof. split; vm_compute; reflexivity. Qed.

(** [TestDBList_Sort] *)
Example TestDBList_Sort :
  Get (sorted_after (list_after "" 10 [3; 1; 2] empty_disk) empty_disk by_ID)
      empty_disk 0
  = Done (mkItem 1, None).
Proof. vm_compute. reflexivity. Qed.

(** Capacity 1, IDs 3, 1, 2, sorted by ID: [Get 0] is the item of ID 1 and
    [Get 2] the one of ID 3, and no file was touched. *)
Example sort_leaves_records_in_place :
  Get (sorted_after (list_after "tmp" 1 [3; 1; 2] empty_disk)
         (disk_after "tmp" 1 [3; 1; 2] empty_disk) by_ID)
      (disk_after "tmp" 1 [3; 1; 2] empty_disk) 0
  = Done (mkItem 1, None) /\
  Get (sorted_after (list_after "tmp" 1 [3; 1; 2] empty_disk)
         (disk_after "tmp" 1 [3; 1; 2] empty_disk) by_ID)
      (disk_after "tmp" 1 [3; 1; 2] empty_disk) 2
  = Done (mkItem 3, None) /\
  sortedIndexes (sorted_after (list_after "tmp" 1 [3; 1; 2] empty_disk)
                   (disk_after "tmp" 1 [3; 1; 2] empty_disk) by_ID)
  = [1; 2; 0].
Proof. split_and!; vm_compute; reflexivity. Qed.

(** *** The claims on concrete lists *)

(** C1 at capacity 2: items 1, 2, 3 leave [1; 2] in memory and one record
    for position 2. *)
Lemma Adds_on_new_list_witness :
  NewDBList "data" 2 = Done (list_after "data" 2 [] empty_disk) /\
  Size (list_after "data" 2 [1; 2; 3] empty_disk) = 3 /\
  memoryData (list_after "data" 2 [1; 2; 3] empty_disk) = [mkItem 1; mkItem 2] /\
  dom (files (disk_after "data" 2 [1; 2; 3] empty_disk))
  = ∅ ∪ list_to_set (recordPath "data" <$> seqZ 2 (3 - 2)) /\
  files (disk_after "data" 2 [1; 2; 3] empty_disk) !! recordPath "data" 2
  = Some (Item_Marshal (mkItem 3)).1.
Proof.
  assert (NewDBList "data" 2 = Done (list_after "data" 2 [] empty_disk)) as Hnew
    by reflexivity.
  split; [exact Hnew|].
  destruct (Adds_on_new_list "data" 2 _ Hnew) as [_ Hspec].
  destruct (Hspec (mkItem <$> [1; 2; 3]) empty_disk
              (list_after "data" 2 [1; 2; 3] empty_disk)
              (disk_after "data" 2 [1; 2; 3] empty_disk))
    as (Hsize & Hmem & _ & records & _ & Hrec & _ & Hdom & Hinj).
  { vm_compute. reflexivity. }
  split_and!; [exact Hsize|exact Hmem|exact Hdom|].
  destruct (Hinj (unix_recordPath_inj "data")) as [_ Hlook].
  cbn in Hrec. apply Forall2_cons_inv_l in Hrec as (data & rest & Hdata & _ & ->).
  injection Hdata as <-. exact (Hlook 0%nat _ eq_refl).
Defined.

(** C2 on a list of three items, two of them on disk. *)
Lemma sortedIndexes_is_permutation_witness :
  reachable (list_after "data" 1 [3; 1; 2] empty_disk) /\
  len (sortedIndexes (list_after "data" 1 [3; 1; 2] empty_disk)) = 3 /\
  sortedIndexes (list_after "data" 1 [3; 1; 2] empty_disk) ≡ₚ seqZ 0 3.
Proof.
  assert (reachable (list_after "data" 1 [3; 1; 2] empty_disk)) as Hd
    by (apply list_after_reachable; lia).
  split; [exact Hd|].
  destruct (sortedIndexes_is_permutation _ Hd) as (Hlen & Hperm & _).
  split; [exact Hlen|exact Hperm].
Defined.

(** C3 on a list of two items: index 2 is out of range. *)
Lemma Get_spec_witness :
  reachable (list_after "data" 1 [1; 2] empty_disk) /\
  (Get (list_after "data" 1 [1; 2] empty_disk)
       (disk_after "data" 1 [1; 2] empty_disk) 2
   = Done (zero, Some (errorString "index out of range"))
   <-> totalCount (list_after "data" 1 [1; 2] empty_disk) <= 2).
Proof.
  assert (reachable (list_after "data" 1 [1; 2] empty_disk)) as Hd
    by (apply list_after_reachable; lia).
  split; [exact Hd|].
  exact (proj1 (Get_spec _ (disk_after "data" 1 [1; 2] empty_disk) 2 Hd)).
Defined.

(** C4 on IDs 2, 1, 2, 1, sorted for the first time: the two items of ID 2
    keep their order, and so do the two of ID 1. *)
Lemma Sort_is_stable_witness :
  reachable (list_after "data" 1 [2; 1; 2; 1] empty_disk) /\
  (forall x y, by_ID x y = Done (ID x <? ID y)) /\
  StrictWeakOrder (fun a b : Item => ID a <? ID b) /\
  exists d',
    Sort (list_after "data" 1 [2; 1; 2; 1] empty_disk)
         (disk_after "data" 1 [2; 1; 2; 1] empty_disk) by_ID = Done d' /\
    before (sortedIndexes d') 0 2 /\ before (sortedIndexes d') 1 3.
Proof.
  assert (reachable (list_after "data" 1 [2; 1; 2; 1] empty_disk)) as Hd
    by (apply list_after_reachable; lia).
  assert (forall x y, by_ID x y = Done (ID x <? ID y)) as Hcmp by reflexivity.
  split_and!; [exact Hd|exact Hcmp|exact by_ID_StrictWeakOrder|].
  destruct (Sort_is_stable _ (disk_after "data" 1 [2; 1; 2; 1] empty_disk)
              by_ID _ Hd Hcmp by_ID_StrictWeakOrder)
    as (d' & HS & Hstable & _).
  exists d'. split; [exact HS|]. split.
  - apply (Hstable 0 2 (mkItem 2) (mkItem 2)); reflexivity || lia.
  - apply (Hstable 1 3 (mkItem 1) (mkItem 1)); reflexivity || lia.
Defined.

(** C5 on a full disk: the write fails and the list is untouched. *)
Lemma Add_all_or_nothing_witness :
  exists d' e w',
    Add (list_after "data" 0 [] empty_disk) (mkItem 7) full_disk = (d', Some e, w') /\
    d' = list_after "data" 0 [] empty_disk.
Proof.
  eexists _, _, _.
  refine ((fun Hadd => conj Hadd (proj1 (Add_all_or_nothing _ _ _ _ _ _ Hadd))) _).
  vm_compute. reflexivity.
Defined.

(** C6 on a list of three items. *)
Lemma Sort_idempotent_witness :
  Sort (list_after "data" 1 [3; 1; 2] empty_disk)
       (disk_after "data" 1 [3; 1; 2] empty_disk) by_ID
  = Done (sorted_after (list_after "data" 1 [3; 1; 2] empty_disk)
            (disk_after "data" 1 [3; 1; 2] empty_disk) by_ID) /\
  exists d2,
    Sort (sorted_after (list_after "data" 1 [3; 1; 2] empty_disk)
            (disk_after "data" 1 [3; 1; 2] empty_disk) by_ID)
         (disk_after "data" 1 [3; 1; 2] empty_disk) by_ID = Done d2 /\
    sortedIndexes d2 = [1; 2; 0].
Proof.
  assert (Sort (list_after "data" 1 [3; 1; 2] empty_disk)
            (disk_after "data" 1 [3; 1; 2] empty_disk) by_ID
          = Done (sorted_after (list_after "data" 1 [3; 1; 2] empty_disk)
                    (disk_after "data" 1 [3; 1; 2] empty_disk) by_ID)) as HS
    by (vm_compute; reflexivity).
  split; [exact HS|].
  destruct (proj1 (Sort_idempotent _ _ _ _ HS)
              (disk_after "data" 1 [3; 1; 2] empty_disk)) as (d2 & HS2 & _ & ->).
  eexists. split; [exact HS2|]. vm_compute. reflexivity.
Defined.

(** C10 on a list sorted by ID: sorting it again with a comparator that
    panics changes nothing. *)
Lemma Sort_ignores_new_comparator_witness :
  Sort (list_after "data" 1 [3; 1; 2] empty_disk)
       (disk_after "data" 1 [3; 1; 2] empty_disk) by_ID
  = Done (sorted_after (list_after "data" 1 [3; 1; 2] empty_disk)
            (disk_after "data" 1 [3; 1; 2] empty_disk) by_ID) /\
  Sort (sorted_after (list_after "data" 1 [3; 1; 2] empty_disk)
          (disk_after "data" 1 [3; 1; 2] empty_disk) by_ID)
       empty_disk panicking
  = Done (sorted_after (list_after "data" 1 [3; 1; 2] empty_disk)
            (disk_after "data" 1 [3; 1; 2] empty_disk) by_ID).
Proof.
  assert (Sort (list_after "data" 1 [3; 1; 2] empty_disk)
            (disk_after "data" 1 [3; 1; 2] empty_disk) by_ID
          = Done (sorted_after (list_after "data" 1 [3; 1; 2] empty_disk)
                    (disk_after "data" 1 [3; 1; 2] empty_disk) by_ID)) as HS
    by (vm_compute; reflexivity).
  split; [exact HS|].
  exact (proj1 (proj2 (Sort_ignores_new_comparator _ _ _ _ HS)) empty_disk panicking).
Defined.

(** C9: [Get(-1)] on a list of three items. *)
Lemma Get_negative_index_panics_witness :
  -1 < 0 /\
  Get (list_after "data" 1 [3; 1; 2] empty_disk)
      (disk_after "data" 1 [3; 1; 2] empty_disk) (-1)
  = Panicked (IndexOutOfRange (-1) 3).
Proof.
  assert (-1 < 0) as Hi by lia. split; [exact Hi|].
  exact (Get_negative_index_panics (list_after "data" 1 [3; 1; 2] empty_disk)
           (disk_after "data" 1 [3; 1; 2] empty_disk) (-1) Hi).
Defined.

(** C8 on 50 items of which the record of position 30 was deleted: 49
    items are sent and one line is logged, for index 30. *)
Lemma Iterator_skips_failures_witness :
  reachable (list_after "data" 10 (seqZ 1 50) empty_disk) /\
  (forall i, i ∈ ({[30]} : gset Z) <->
     0 <= i < totalCount (list_after "data" 10 (seqZ 1 50) empty_disk) /\
     Get_fails (list_after "data" 10 (seqZ 1 50) empty_disk)
       (delete_record "data" 30 (disk_after "data" 10 (seqZ 1 50) empty_disk)) i
     = true) /\
  exists sent logged,
    Iterator (list_after "data" 10 (seqZ 1 50) empty_disk)
      (delete_record "data" 30 (disk_after "data" 10 (seqZ 1 50) empty_disk))
      context_Background = Done (sent, logged) /\
    len sent = 49 /\
    logged = ["DBList failed to load index 30"].
Proof.
  assert (reachable (list_after "data" 10 (seqZ 1 50) empty_disk)) as Hd
    by (apply list_after_reachable; lia).
  assert (forall i, i ∈ ({[30]} : gset Z) <->
     0 <= i < totalCount (list_after "data" 10 (seqZ 1 50) empty_disk) /\
     Get_fails (list_after "data" 10 (seqZ 1 50) empty_disk)
       (delete_record "data" 30 (disk_after "data" 10 (seqZ 1 50) empty_disk)) i
     = true) as HS.
  { intros i. rewrite elem_of_singleton. change (totalCount _) with 50. split.
    - intros ->. split; [lia|]. vm_compute. reflexivity.
    - intros [Hi Hf].
      assert (forallb (fun i => implb
        (Get_fails (list_after "data" 10 (seqZ 1 50) empty_disk)
           (delete_record "data" 30 (disk_after "data" 10 (seqZ 1 50) empty_disk)) i)
        (i =? 30)) (seqZ 0 50) = true) as Hall by (vm_compute; reflexivity).
      rewrite forallb_forall in Hall. specialize (Hall i).
      rewrite Hf in Hall. apply Z.eqb_eq, Hall.
      apply list_elem_of_In, elem_of_seqZ. lia. }
  split; [exact Hd|]. split; [exact HS|].
  destruct (Iterator_skips_failures _ _ _ Hd HS)
    as (sent & logged & HI & _ & Hlog & Hsent & _).
  exists sent, logged. split; [exact HI|]. split.
  - rewrite Hsent, size_singleton. reflexivity.
  - rewrite Hlog. vm_compute. reflexivity.
Defined.

(** C4 as the spec states it fails.  IDs 2 and 1 are added and sorted by
    ID, ID 3 is added, and the list is sorted with a comparator under which
    all items are equal.  The items of positions 0 and 1 compare equal and
    position 0 was inserted first, but [sortedIndexes] is [1; 0; 2]:
    position 1 stays before position 0, where the first [Sort] put it. *)
Lemma Sort_insertion_order_counterexample :
  ~ (forall (d : DBList Item) w compare (cmp : Item -> Item -> bool) d' p q,
       reachable d ->
       (forall x y, compare x y = Done (cmp x y)) ->
       StrictWeakOrder cmp ->
       (forall p, p ∈ sortedIndexes d -> readable d w p) ->
       Sort d w compare = Done d' ->
       0 <= p < q -> q < totalCount d ->
       cmp (materialized d w p) (materialized d w q) = false ->
       cmp (materialized d w q) (materialized d w p) = false ->
       before (sortedIndexes d') p q).
Proof.
  intros Hclaim.
  specialize (Hclaim sorted_then_grown empty_disk all_equal (fun _ _ => false)
                (sorted_after sorted_then_grown empty_disk all_equal) 0 1
                sorted_then_grown_reachable (fun _ _ => eq_refl)
                all_equal_StrictWeakOrder).
  destruct Hclaim as (i & j & Hij & Hi & Hj); try reflexivity; try lia.
  - intros p Hp. change (p ∈ [1; 0; 2]) in Hp.
    repeat (apply elem_of_cons in Hp as [->|Hp]; [eexists; vm_compute; reflexivity|]).
    by apply elem_of_nil in Hp.
  - change (sortedIndexes _) with [1; 0; 2] in Hi, Hj.
    destruct i as [|[|[|i]]]; try discriminate Hi.
    destruct j as [|[|[|j]]]; try discriminate Hj. lia.
Qed.

(** C7, where the code departs from it.  IDs 1, 3, 2 are added to a list
    of capacity 1 and the record of position 2 is deleted.  Reading
    position 2 fails; [Sort] has no error to return and does not panic: it
    compares the zero item in place of the lost one, puts position 2 first
    and declares the list sorted.  With the record in place the order is
    [0; 2; 1]. *)
Theorem Sort_drops_read_errors :
  (exists err,
     getFromStorage (list_after "data" 1 [1; 3; 2] empty_disk)
       (delete_record "data" 2 (disk_after "data" 1 [1; 3; 2] empty_disk)) 2
     = Done (mkItem 0, Some (wrapError "failed to read from disk: " err))) /\
  (exists d',
     Sort (list_after "data" 1 [1; 3; 2] empty_disk)
       (delete_record "data" 2 (disk_after "data" 1 [1; 3; 2] empty_disk)) by_ID
     = Done d' /\
     isSorted d' = true /\ sortedIndexes d' = [2; 0; 1]) /\
  (exists d',
     Sort (list_after "data" 1 [1; 3; 2] empty_disk)
       (disk_after "data" 1 [1; 3; 2] empty_disk) by_ID
     = Done d' /\
     isSorted d' = true /\ sortedIndexes d' = [0; 2; 1]).
Proof.
  split_and!.
  - eexists. vm_compute. reflexivity.
  - eexists. split; [vm_compute; reflexivity|]. by split.
  - eexists. split; [vm_compute; reflexivity|]. by split.
Qed.

(** * More of the package *)

(** ** What is stored stays stored *)

Section Storage.
Context {T : Type} `{!JSON T} `{!Filepath} `{!Runtime T}.
Implicit Types (d : DBList T) (w : World) (item : T).

(** [Add] changes no fault of the machine and no file but the record of
    the position it is about to assign. *)
Lemma Add_world d item w d' err w' :
  Add d item w = (d', err, w') ->
  fault w' = fault w /\
  forall key, key <> recordPath (diskPath d) (totalCount d) ->
              files w' !! key = files w !! key.
Proof.
  unfold Add. destruct (Z.ltb_spec (len (memoryData d)) (maxInMemory d)).
  { by intros [= _ _ <-]. }
  unfold filePathForIndex, os_MkdirAll.
  destruct (fault w SysMkdirAll _) as [e|] eqn:Hmk.
  { by intros [= _ _ <-]. }
  destruct (json_Marshal item) as [data [e|]] eqn:Hjs.
  { by intros [= _ _ <-]. }
  unfold os_Create; cbn [fault].
  destruct (fault w SysCreate _) as [e|] eqn:Hcr.
  { by intros [= _ _ <-]. }
  unfold File_Write; cbn [fault].
  destruct (fault w SysWrite _) as [e|] eqn:Hwr.
  - intros [= _ _ <-]. split; [done|]. intros key Hkey. cbn [files].
    by apply lookup_insert_ne.
  - intros [= _ _ <-]. split; [done|]. intros key Hkey. cbn [files].
    rewrite lookup_insert_ne by done. by apply lookup_insert_ne.
Qed.

Lemma Add_fields d item w d' err w' :
  Add d item w = (d', err, w') ->
  diskPath d' = diskPath d /\ maxInMemory d' = maxInMemory d /\
  totalCount d <= totalCount d' /\
  memoryData d `prefix_of` memoryData d'.
Proof.
  intros Hadd.
  apply Add_inv in Hadd as [(_ & _ & -> & _)|[(_ & _ & -> & _)|(e & _ & _ & ->)]];
    cbn; split_and!; try done; try lia.
  by apply prefix_app_r.
Qed.

Lemma Sort_fields d w compare d' :
  Sort d w compare = Done d' ->
  diskPath d' = diskPath d /\ maxInMemory d' = maxInMemory d /\
  totalCount d' = totalCount d /\ memoryData d' = memoryData d.
Proof. intros [[_ ->]|(_ & s & _ & ->)]%Sort_inv; done. Qed.

(** [retrieveFromDisk] looks at the directory of the list, at the fault
    of reading the record and at the record, and at nothing else. *)
Lemma retrieveFromDisk_ext d w d' w' p :
  diskPath d' = diskPath d ->
  fault w' = fault w ->
  files w' !! recordPath (diskPath d) p = files w !! recordPath (diskPath d) p ->
  retrieveFromDisk d' w' p = retrieveFromDisk d w p.
Proof.
  intros Hpath Hfault Hfile.
  unfold retrieveFromDisk, filePathForIndex, os_ReadFile, recordPath in *.
  by rewrite Hpath, Hfault, Hfile.
Qed.

Lemma getFromStorage_ext d w d' w' p :
  memoryData d `prefix_of` memoryData d' ->
  (len (memoryData d) <= p -> memoryData d' = memoryData d) ->
  diskPath d' = diskPath d ->
  fault w' = fault w ->
  files w' !! recordPath (diskPath d) p = files w !! recordPath (diskPath d) p ->
  0 <= p ->
  getFromStorage d' w' p = getFromStorage d w p.
Proof.
  intros [k Hk] Hmem Hpath Hfault Hfile Hp.
  destruct (Z.lt_ge_cases p (len (memoryData d))) as [Hlt|Hge].
  - destruct (lookup_lt_is_Some_2 (memoryData d) (Z.to_nat p)) as [item Hitem].
    { unfold len in *. lia. }
    rewrite (getFromStorage_memory d w p item) by done.
    apply getFromStorage_memory; [done|]. rewrite Hk. by apply lookup_app_l_Some.
  - unfold getFromStorage. rewrite (Hmem Hge).
    destruct (Z.ltb_spec p (len (memoryData d))); [lia|].
    f_equal. by apply retrieveFromDisk_ext.
Qed.

(** An [Add], failed or not, leaves every position assigned so far as it
    was. *)
Lemma Add_getFromStorage d item w d' err w' p :
  well_formed d ->
  (forall q, recordPath (diskPath d) p = recordPath (diskPath d) q -> p = q) ->
  Add d item w = (d', err, w') ->
  0 <= p < totalCount d ->
  getFromStorage d' w' p = getFromStorage d w p.
Proof.
  intros (_ & _ & Hmem & _) Hinj Hadd Hp.
  destruct (Add_world _ _ _ _ _ _ Hadd) as [Hfault Hfiles].
  destruct (Add_fields _ _ _ _ _ _ Hadd) as (Hpath & _ & _ & Hpre).
  apply getFromStorage_ext; [done| |done|done| |lia].
  - intros Hge.
    apply Add_inv in Hadd as [(_ & Hlt & -> & _)|[(_ & _ & -> & _)|(e & _ & _ & ->)]];
      [lia|done|done].
  - apply Hfiles. intros Heq. apply Hinj in Heq. lia.
Qed.

Lemma Get_getFromStorage d w (i : nat) p :
  sortedIndexes d !! i = Some p ->
  Get d w (Z.of_nat i) = getFromStorage d w p.
Proof.
  intros Hp. unfold Get. pose proof (lookup_lt_Some _ _ _ Hp).
  destruct (Z.geb_spec (Z.of_nat i) (len (sortedIndexes d))); [unfold len in *; lia|].
  by rewrite (slice_index_Done _ _ _ Hp).
Qed.

Lemma Add_Get_old d item w d' err w' i :
  well_formed d ->
  (forall p q, recordPath (diskPath d) p = recordPath (diskPath d) q -> p = q) ->
  Add d item w = (d', err, w') ->
  0 <= i < totalCount d ->
  Get d' w' i = Get d w i.
Proof.
  intros Hwf Hinj Hadd Hi.
  destruct (well_formed_lookup d i Hwf Hi) as (p & Hp & Hrange).
  rewrite <- (Z2Nat.id i) by lia.
  rewrite (Get_getFromStorage d w _ p Hp).
  rewrite (Get_getFromStorage d' w' _ p).
  - eapply Add_getFromStorage; eauto.
  - pose proof Hadd as Hadd'.
    apply Add_inv in Hadd' as [(_ & _ & -> & _)|[(_ & _ & -> & _)|(e & _ & _ & ->)]];
      cbn; [| |done]; by apply lookup_app_l_Some.
Qed.

(** The item just added is the last one, and [Get] finds it there when it
    can be read back: always from memory, and from the disk when reading
    the record is not refused and the bytes decode to the item. *)
Lemma Add_Get_new d item w d' w' :
  well_formed d ->
  Add d item w = (d', None, w') ->
  (maxInMemory d <= totalCount d ->
   fault w SysReadFile (recordPath (diskPath d) (totalCount d)) = None /\
   forall data, json_Marshal item = (data, None) ->
                json_Unmarshal data zero = (item, None)) ->
  Get d' w' (totalCount d) = Done (item, None).
Proof.
  intros (Hlen & _ & Hmem & _) Hadd Hdisk.
  assert (0 <= totalCount d) as Htc by (unfold len in *; lia).
  assert (sortedIndexes d' !! Z.to_nat (totalCount d) = Some (totalCount d)) as Hp.
  { assert (sortedIndexes d' = sortedIndexes d ++ [totalCount d]) as ->.
    { apply Add_inv in Hadd
        as [(_ & _ & -> & _)|[(_ & _ & -> & _)|(e & [=] & _)]]; done. }
    rewrite lookup_app_r; unfold len in *; [|lia].
    by replace (Z.to_nat (totalCount d) - length (sortedIndexes d))%nat with 0%nat by lia. }
  rewrite <- (Z2Nat.id (totalCount d)) at 1 by done.
  rewrite (Get_getFromStorage d' w' _ _ Hp).
  apply Add_inv in Hadd
    as [(_ & Hlt & -> & _)|[(_ & Hge & -> & data & Hdata & Hfiles & Hfault)|(e & [=] & _)]].
  - apply getFromStorage_memory; [done|]. cbn.
    rewrite lookup_app_r; unfold len in *; [|lia].
    by replace (Z.to_nat (totalCount d) - length (memoryData d))%nat with 0%nat by lia.
  - destruct Hdisk as [Hread Hround]; [lia|].
    rewrite getFromStorage_disk by (cbn; lia).
    unfold retrieveFromDisk, filePathForIndex, os_ReadFile; cbn [diskPath Add_commit].
    fold (recordPath (diskPath d) (totalCount d)).
    rewrite Hfault, Hread, Hfiles, lookup_insert_eq.
    by rewrite (Hround data Hdata).
Qed.

(** Below capacity [Add] does not look at the disk. *)
Lemma Add_in_memory d item w w0 d' w' :
  len (memoryData d) < maxInMemory d ->
  Add d item w = (d', None, w') -> Add d item w0 = (d', None, w0).
Proof.
  intros Hlt. unfold Add.
  destruct (Z.ltb_spec (len (memoryData d)) (maxInMemory d)); [|lia].
  by intros [= <- _].
Qed.

End Storage.

Section Runs_facts.
Context {T : Type} `{!JSON T} `{!Filepath} `{!Runtime T}.
Implicit Types (d : DBList T) (w : World) (item : T).

(** X1. The item that a successful [Add] stores is the last of the list,
    at the logical index that [Size] gave before the call.  When the
    list was below its capacity the item is in memory and [Get] returns
    it from there on every disk, with no condition.  When the list was at
    capacity the item is in its record and [Get] returns it provided that
    reading the record is not refused and that the bytes [json.Marshal]
    produced decode to the item. *)
Theorem Add_then_Get d item w d' w' :
  reachable d ->
  Add d item w = (d', None, w') ->
  Size d' = Size d + 1 /\
  (Size d < maxInMemory d ->
   forall w0, Get d' w0 (Size d) = Done (item, None)) /\
  (maxInMemory d <= Size d ->
   fault w SysReadFile (recordPath (diskPath d) (Size d)) = None ->
   (forall data, json_Marshal item = (data, None) ->
                 json_Unmarshal data zero = (item, None)) ->
   Get d' w' (Size d) = Done (item, None)).
Proof.
  intros Hd Hadd. pose proof (reachable_well_formed d Hd) as Hwf.
  pose proof Hwf as (_ & _ & Hmem & _). unfold Size. split_and!.
  - apply Add_inv in Hadd
      as [(_ & _ & -> & _)|[(_ & _ & -> & _)|(e & [=] & _)]]; done.
  - intros Hlt w0. apply (Add_Get_new d item w0 d' w0 Hwf); [|lia].
    apply (Add_in_memory d item w w0 d' w'); [lia|done].
  - intros Hge Hread Hround. by apply (Add_Get_new d item w d' w' Hwf).
Qed.

(** X2. An [Add] does not disturb the items already in the list, whether
    it succeeds or fails: when the records of distinct positions have
    distinct paths, [Get] returns after the call what it returned before,
    at every index that was in range. *)
Theorem Add_keeps_earlier_items d item w d' err w' i :
  reachable d ->
  (forall p q, recordPath (diskPath d) p = recordPath (diskPath d) q -> p = q) ->
  Add d item w = (d', err, w') ->
  0 <= i < Size d ->
  Get d' w' i = Get d w i.
Proof.
  intros Hd Hinj Hadd Hi.
  exact (Add_Get_old d item w d' err w' i (reachable_well_formed d Hd) Hinj Hadd Hi).
Qed.

Lemma step_reachable d w d' w' :
  step (d, w) (d', w') -> reachable d -> reachable d'.
Proof.
  inversion 1; subst; intros Hd.
  - by eapply reachable_Add.
  - by eapply reachable_Sort.
Qed.

Lemma step_keeps d w d' w' :
  step (d, w) (d', w') -> well_formed d ->
  diskPath d' = diskPath d /\ maxInMemory d' = maxInMemory d /\
  totalCount d <= totalCount d' /\
  memoryData d `prefix_of` memoryData d' /\
  ((forall p q, recordPath (diskPath d) p = recordPath (diskPath d) q -> p = q) ->
   forall p, 0 <= p < totalCount d ->
             getFromStorage d' w' p = getFromStorage d w p).
Proof.
  inversion 1 as [? ? item ? err ? Hadd|? ? compare ? HS]; subst; intros Hwf.
  - destruct (Add_fields _ _ _ _ _ _ Hadd) as (Hpath & Hcap & Htc & Hpre).
    split_and!; [done..|]. intros Hinj p Hp.
    apply (Add_getFromStorage d item w d' err w'); auto.
  - destruct (Sort_fields _ _ _ _ HS) as (Hpath & Hcap & Htc & Hmem).
    split_and!; [done|done|lia|by rewrite Hmem|]. intros _ p Hp.
    apply getFromStorage_ext; [by rewrite Hmem|done|done|done|done|lia].
Qed.

Lemma run_keeps (x y : DBList T * World) :
  run x y -> reachable x.1 ->
  (forall p q, recordPath (diskPath x.1) p = recordPath (diskPath x.1) q -> p = q) ->
  reachable y.1 /\
  diskPath y.1 = diskPath x.1 /\ maxInMemory y.1 = maxInMemory x.1 /\
  totalCount x.1 <= totalCount y.1 /\
  memoryData x.1 `prefix_of` memoryData y.1 /\
  forall p, 0 <= p < totalCount x.1 ->
            getFromStorage y.1 y.2 p = getFromStorage x.1 x.2 p.
Proof.
  intros Hrun Hx Hinj. unfold run in Hrun. revert y Hrun. apply rtc_ind_r.
  { split_and!; done. }
  intros y z Hxy Hyz IH. destruct IH as (Hy & Hpath & Hcap & Htc & Hpre & Hkeep).
  destruct y as [d1 w1], z as [d2 w2]; cbn in *.
  destruct (step_keeps d1 w1 d2 w2 Hyz) as (Hpath' & Hcap' & Htc' & Hpre' & Hkeep').
  { by apply reachable_well_formed. }
  split_and!.
  - by eapply step_reachable.
  - congruence.
  - congruence.
  - lia.
  - by etrans.
  - intros p Hp. rewrite <- Hkeep by done. apply Hkeep'; [|lia].
    rewrite Hpath. apply Hinj.
Qed.

(** X3. Physical positions are for good.  Through any run of [Add]
    calls, failed or not, and [Sort] calls the directory and the capacity
    of the list stay what they are, [totalCount] never decreases,
    [memoryData] only grows at its end, and (the records of distinct
    positions having distinct paths) [getFromStorage] returns for every
    position assigned before the run what it returned then. *)
Theorem run_keeps_positions d w d' w' :
  reachable d ->
  (forall p q, recordPath (diskPath d) p = recordPath (diskPath d) q -> p = q) ->
  run (d, w) (d', w') ->
  reachable d' /\
  diskPath d' = diskPath d /\ maxInMemory d' = maxInMemory d /\
  totalCount d <= totalCount d' /\
  memoryData d `prefix_of` memoryData d' /\
  forall p, 0 <= p < totalCount d ->
            getFromStorage d' w' p = getFromStorage d w p.
Proof. intros Hd Hinj Hrun. by apply (run_keeps (d, w) (d', w')). Qed.

End Runs_facts.

(** ** Batches *)

Section Batches.
Context {T : Type} `{!JSON T} `{!Filepath} `{!Runtime T}.
Implicit Types (d : DBList T) (w : World) (item : T).

Lemma Adds_cons d item items w :
  Adds d (item :: items) w =
  match Add d item w with
  | (d', Some err, w') => (d', Some err, w')
  | (d', None, w') => Adds d' items w'
  end.
Proof. reflexivity. Qed.

Lemma Adds_app_eq d items1 items2 w :
  Adds d (items1 ++ items2) w =
  match Adds d items1 w with
  | (d1, Some err, w1) => (d1, Some err, w1)
  | (d1, None, w1) => Adds d1 items2 w1
  end.
Proof.
  revert d w. induction items1 as [|item items1 IH]; intros d w; [done|].
  cbn [app]. rewrite !Adds_cons.
  destruct (Add d item w) as [[d1 [e|]] w1]; [done|]. apply IH.
Qed.

Lemma Adds_count d items w d' w' :
  Adds d items w = (d', None, w') ->
  totalCount d' = totalCount d + len items.
Proof.
  revert d w. induction items as [|item items IH]; intros d w; cbn [Adds].
  { intros [= <- _]. unfold len; cbn. lia. }
  destruct (Add d item w) as [[d1 [e|]] w1] eqn:Hadd; [done|].
  intros HAdds%IH. rewrite HAdds. unfold len; cbn [length].
  apply Add_inv in Hadd
    as [(_ & _ & -> & _)|[(_ & _ & -> & _)|(? & [=] & _)]]; cbn; lia.
Qed.

Lemma Adds_failure d items w d' e w' :
  Adds d items w = (d', Some e, w') ->
  exists added item rest d1 w1,
    items = added ++ item :: rest /\
    Adds d added w = (d1, None, w1) /\
    Add d1 item w1 = (d1, Some e, w') /\
    d' = d1.
Proof.
  revert d w. induction items as [|item items IH]; intros d w; cbn [Adds]; [done|].
  destruct (Add d item w) as [[d1 [e1|]] w1] eqn:Hadd.
  - intros [= <- <- <-]. exists [], item, items, d, w.
    assert (d1 = d) as ->.
    { apply Add_inv in Hadd as [([=] & _)|[([=] & _)|(? & _ & _ & ->)]]. done. }
    done.
  - intros (added & item' & rest & d2 & w2 & -> & HAdds & Hfail & ->)%IH.
    exists (item :: added), item', rest, d2, w2.
    split_and!; [done| |done|done]. rewrite Adds_cons. by rewrite Hadd.
Qed.

(** X5. [Adds] stops at the first [Add] that fails and returns its
    error.  The items before it are in the list as if they had been added
    alone; the failing item and the items after it are not: [Size] has
    grown by the number of items before the failure. *)
Theorem Adds_stops_at_first_failure d items w d' e w' :
  Adds d items w = (d', Some e, w') ->
  exists added item rest w1,
    items = added ++ item :: rest /\
    Adds d added w = (d', None, w1) /\
    Add d' item w1 = (d', Some e, w') /\
    Size d' = Size d + len added.
Proof.
  intros (added & item & rest & d1 & w1 & -> & HAdds & Hfail & ->)%Adds_failure.
  exists added, item, rest, w1. split_and!; [done..|].
  by apply Adds_count in HAdds.
Qed.

Lemma Adds_fields d items w d' err w' :
  Adds d items w = (d', err, w') ->
  diskPath d' = diskPath d /\ fault w' = fault w /\ totalCount d <= totalCount d'.
Proof.
  revert d w. induction items as [|item items IH]; intros d w; cbn [Adds].
  { by intros [= <- _ <-]. }
  destruct (Add d item w) as [[d1 [e|]] w1] eqn:Hadd.
  - intros [= <- _ <-]. destruct (Add_fields _ _ _ _ _ _ Hadd) as (? & _ & ? & _).
    by destruct (Add_world _ _ _ _ _ _ Hadd) as [? _].
  - intros (Hpath & Hfault & Htc)%IH.
    destruct (Add_fields _ _ _ _ _ _ Hadd) as (? & _ & ? & _).
    destruct (Add_world _ _ _ _ _ _ Hadd) as [? _].
    split_and!; [congruence|congruence|lia].
Qed.

Lemma Adds_Get d items w d' w' :
  well_formed d ->
  (forall p q, recordPath (diskPath d) p = recordPath (diskPath d) q -> p = q) ->
  (forall p, totalCount d <= p ->
     fault w SysReadFile (recordPath (diskPath d) p) = None) ->
  (forall item data, item ∈ items -> json_Marshal item = (data, None) ->
     json_Unmarshal data zero = (item, None)) ->
  Adds d items w = (d', None, w') ->
  (forall (k : nat) item, items !! k = Some item ->
     Get d' w' (totalCount d + Z.of_nat k) = Done (item, None)) /\
  (forall i, 0 <= i < totalCount d -> Get d' w' i = Get d w i).
Proof.
  revert d w. induction items as [|item items IH];
    intros d w Hwf Hinj Hread Hround; cbn [Adds].
  { intros [= <- <-]. split; [|done]. intros k item Hk. by rewrite lookup_nil in Hk. }
  destruct (Add d item w) as [[d1 [e|]] w1] eqn:Hadd; [done|]. intros HAdds.
  pose proof Hwf as (Hlen & _). unfold len in Hlen.
  destruct (Add_fields _ _ _ _ _ _ Hadd) as (Hpath & _ & _ & _).
  destruct (Add_world _ _ _ _ _ _ Hadd) as [Hfault _].
  assert (totalCount d1 = totalCount d + 1) as Htc.
  { pose proof Hadd as Hadd'. apply Add_inv in Hadd'
      as [(_ & _ & -> & _)|[(_ & _ & -> & _)|(? & [=] & _)]]; done. }
  destruct (IH d1 w1) as [Hnew Hold]; [| | | |exact HAdds|].
  { by eapply Add_well_formed. }
  { by rewrite Hpath. }
  { intros p Hp. rewrite Hpath, Hfault. apply Hread. lia. }
  { intros item' data Hin. apply Hround. by right. }
  split.
  - intros [|k] item' Hk; cbn in Hk.
    + injection Hk as <-. rewrite Z.add_0_r, Hold by lia.
      apply (Add_Get_new d item w d1 w1); [done|done|]. intros _. split.
      * apply Hread. lia.
      * intros data. apply Hround. by left.
    + replace (totalCount d + Z.of_nat (S k)) with (totalCount d1 + Z.of_nat k) by lia.
      by apply Hnew.
  - intros i Hi. rewrite Hold by lia. by apply (Add_Get_old d item w d1 None w1).
Qed.

(** X6. What goes in comes out.  After a batch was added without error
    to a list of [n] items, the [k]-th item of the batch is at the
    logical index [n + k] and the [n] earlier indices return what they
    returned before, provided that the records of distinct positions have
    distinct paths, that reading the new records is not refused and that
    the encoding of each item of the batch decodes to the item. *)
Theorem Adds_then_Get d items w d' w' :
  reachable d ->
  (forall p q, recordPath (diskPath d) p = recordPath (diskPath d) q -> p = q) ->
  (forall p, Size d <= p ->
     fault w SysReadFile (recordPath (diskPath d) p) = None) ->
  (forall item data, item ∈ items -> json_Marshal item = (data, None) ->
     json_Unmarshal data zero = (item, None)) ->
  Adds d items w = (d', None, w') ->
  Size d' = Size d + len items /\
  (forall (k : nat) item, items !! k = Some item ->
     Get d' w' (Size d + Z.of_nat k) = Done (item, None)) /\
  (forall i, 0 <= i < Size d -> Get d' w' i = Get d w i).
Proof.
  intros Hd Hinj Hread Hround HAdds. split.
  - by apply Adds_count in HAdds.
  - exact (Adds_Get d items w d' w' (reachable_well_formed d Hd)
             Hinj Hread Hround HAdds).
Qed.

End Batches.

(** ** Lookups and iteration *)

Section Lookups.
Context {T : Type} `{!JSON T} `{!Filepath} `{!Runtime T}.
Implicit Types (d : DBList T) (w : World) (item : T).

Lemma Get_returns d w i :
  well_formed d -> 0 <= i -> exists item err, Get d w i = Done (item, err).
Proof.
  intros Hwf Hi. destruct (Z.lt_ge_cases i (totalCount d)) as [Hlt|Hge].
  - destruct (Get_in_range d w i Hwf) as (_ & _ & _ & _ & Hret); [lia|done].
  - pose proof Hwf as (Hlen & _). unfold Get.
    destruct (Z.geb_spec i (len (sortedIndexes d))); [eauto|lia].
Qed.

(** X7. On a list a program can hold, [Get] panics for the negative
    indices and for no other: from zero on it returns, with an item or
    with an error. *)
Theorem Get_panics_only_below_zero d w i :
  reachable d ->
  ((exists p, Get d w i = Panicked p) <-> i < 0) /\
  (0 <= i -> exists item err, Get d w i = Done (item, err)).
Proof.
  intros Hd. pose proof (reachable_well_formed d Hd) as Hwf. split.
  - split.
    + intros [p Hp]. destruct (Z.lt_ge_cases i 0) as [|Hge]; [done|].
      destruct (Get_returns d w i Hwf Hge) as (item & err & HG). congruence.
    + intros Hi. eexists. by apply Get_negative.
  - by apply Get_returns.
Qed.

Lemma Iterator_loop_prefix d w ctx (fuel : nat) (i : Z) :
  well_formed d -> 0 <= i ->
  exists sent logged sent0 logged0,
    Iterator_loop d w ctx fuel i = Done (sent, logged) /\
    Iterator_loop d w context_Background fuel i = Done (sent0, logged0) /\
    sent `prefix_of` sent0 /\ logged `prefix_of` logged0 /\
    (forall k, i <= k -> ctx_Err ctx k = true ->
               len sent + len logged <= k - i).
Proof.
  intros Hwf. revert i. induction fuel as [|fuel IH]; intros i Hi.
  { exists [], [], [], []. split_and!; try done. unfold len; cbn. lia. }
  cbn [Iterator_loop context_Background ctx_Err ctx_Done].
  destruct (Z.ltb_spec i (totalCount d)).
  2:{ exists [], [], [], []. split_and!; try done. unfold len; cbn. lia. }
  destruct (Get_in_range d w i Hwf) as (_ & _ & _ & _ & item & err & HGet); [lia|].
  destruct (IH (i + 1)) as (sent & logged & sent0 & logged0 & Hrun & Hbg & Hs & Hl & Hk);
    [lia|].
  rewrite HGet; cbn. rewrite Hbg; cbn.
  destruct (ctx_Err ctx i) eqn:Herr.
  { exists [], [].
    destruct err; eexists _, _; (split_and!; [reflexivity|reflexivity| | |]);
      try apply prefix_nil; intros k Hik _; unfold len; cbn; lia. }
  rewrite Hrun; cbn. destruct err as [err|].
  - eexists _, _, _, _. split_and!; try done; [by apply prefix_cons|].
    intros k Hik Hkerr. assert (i <> k) by congruence.
    specialize (Hk k ltac:(lia) Hkerr). unfold len in *; cbn [length]. lia.
  - destruct (ctx_Done ctx i).
    + eexists [], [], _, _. split_and!; try done; try apply prefix_nil.
      unfold len; cbn. lia.
    + eexists _, _, _, _. split_and!; try done; [by apply prefix_cons|].
      intros k Hik Hkerr. assert (i <> k) by congruence.
      specialize (Hk k ltac:(lia) Hkerr). unfold len in *; cbn [length]. lia.
Qed.

Lemma Iterator_loop_not_cancelled d w ctx (fuel : nat) (i : Z) :
  (forall k, i <= k < totalCount d -> ctx_Err ctx k = false /\ ctx_Done ctx k = false) ->
  Iterator_loop d w ctx fuel i = Iterator_loop d w context_Background fuel i.
Proof.
  revert i. induction fuel as [|fuel IH]; intros i Hctx; [done|].
  cbn [Iterator_loop context_Background ctx_Err ctx_Done].
  destruct (Z.ltb_spec i (totalCount d)); [|done].
  destruct (Hctx i) as [-> ->]; [lia|].
  rewrite IH; [done|]. intros k Hk. apply Hctx. lia.
Qed.

(** X8. Cancelling an iteration cuts it short and does nothing else.  On
    a list a program can hold, whatever the context does, the producer of
    [Iterator] does not panic, and what it sends and what it logs are
    beginnings of what it sends and logs under a context that is never
    cancelled.  Once [ctx.Err()] is set at the start of round [k] no more
    than [k] indices have been handled; and a context that is not
    cancelled during the rounds changes nothing. *)
Theorem Iterator_cancellation d w ctx :
  reachable d ->
  exists sent logged sent0 logged0,
    Iterator d w ctx = Done (sent, logged) /\
    Iterator d w context_Background = Done (sent0, logged0) /\
    sent `prefix_of` sent0 /\ logged `prefix_of` logged0 /\
    (forall k, 0 <= k -> ctx_Err ctx k = true -> len sent + len logged <= k) /\
    ((forall k, 0 <= k < Size d -> ctx_Err ctx k = false /\ ctx_Done ctx k = false) ->
     sent = sent0 /\ logged = logged0).
Proof.
  intros Hd. pose proof (reachable_well_formed d Hd) as Hwf.
  destruct (Iterator_loop_prefix d w ctx (Z.to_nat (totalCount d)) 0 Hwf)
    as (sent & logged & sent0 & logged0 & Hrun & Hbg & Hs & Hl & Hk); [lia|].
  exists sent, logged, sent0, logged0. unfold Iterator.
  split_and!; [done|done|done|done| |].
  - intros k Hk0 Herr. specialize (Hk k Hk0 Herr). lia.
  - intros Hctx. rewrite Iterator_loop_not_cancelled in Hrun by done.
    rewrite Hbg in Hrun. by injection Hrun as <- <-.
Qed.

Lemma omap_seqZ_lookup (f : Z -> option T) (l : list T) (a : Z) :
  (forall (k : nat) x, l !! k = Some x -> f (a + Z.of_nat k) = Some x) ->
  omap f (seqZ a (len l)) = l.
Proof.
  revert a. induction l as [|x l IH]; intros a Hf; [done|].
  unfold len. cbn [length]. rewrite (seqZ_cons a) by lia.
  replace (Z.pred (Z.of_nat (S (length l)))) with (len l) by (unfold len; lia).
  cbn [omap list_omap].
  pose proof (Hf 0%nat x eq_refl) as H0. rewrite Z.add_0_r in H0. rewrite H0.
  f_equal. apply IH.
  intros k y Hk. replace (Z.succ a + Z.of_nat k) with (a + Z.of_nat (S k)) by lia.
  by apply Hf.
Qed.

Lemma filter_seqZ_nil (P : Z -> Prop) `{!forall i, Decision (P i)} (a n : Z) :
  (forall i, a <= i < a + n -> ~ P i) -> filter P (seqZ a n) = [].
Proof.
  intros HP. apply elem_of_nil_inv. intros i Hi.
  apply list_elem_of_filter in Hi as [Hi Hin%elem_of_seqZ]. by apply (HP i).
Qed.

(** X9. An iteration gives back a batch as it went in.  A new list
    receives a batch without error; the records of distinct positions
    have distinct paths, reading a record is not refused and the encoding
    of each item decodes to the item.  Then [Get k] is the [k]-th item of
    the batch, whether it stayed in memory or went to disk, and the
    iterator sends the batch in its order and logs nothing. *)
Theorem Iterator_returns_the_batch path C d0 items w0 d w :
  NewDBList path C = Done d0 ->
  (forall p q, recordPath path p = recordPath path q -> p = q) ->
  (forall p, 0 <= p -> fault w0 SysReadFile (recordPath path p) = None) ->
  (forall item data, item ∈ items -> json_Marshal item = (data, None) ->
     json_Unmarshal data zero = (item, None)) ->
  Adds d0 items w0 = (d, None, w) ->
  (forall (k : nat) item, items !! k = Some item ->
     Get d w (Z.of_nat k) = Done (item, None)) /\
  Iterator d w context_Background = Done (items, []).
Proof.
  intros Hnew Hinj Hread Hround HAdds.
  pose proof (NewDBList_well_formed _ _ _ Hnew) as Hwf0.
  pose proof (reachable_New _ _ _ Hnew) as Hd0.
  apply NewDBList_inv in Hnew as [HC ->].
  destruct (Adds_Get _ items w0 d w Hwf0 Hinj Hread Hround HAdds) as [HGet _].
  cbn [totalCount] in HGet.
  assert (forall (k : nat) item, items !! k = Some item ->
            Get d w (Z.of_nat k) = Done (item, None)) as HGet'.
  { intros k item Hk. rewrite <- (Z.add_0_l (Z.of_nat k)). by apply HGet. }
  split; [done|].
  assert (well_formed d) as Hwf.
  { apply reachable_well_formed. by eapply Adds_reachable. }
  pose proof (Adds_count _ _ _ _ _ HAdds) as Htc. cbn [totalCount] in Htc.
  unfold Iterator. rewrite (Iterator_loop_spec d w) by (done || unfold len in *; lia).
  rewrite Z2Nat.id by (unfold len in *; lia). rewrite Htc, Z.add_0_l.
  f_equal. f_equal.
  - apply omap_seqZ_lookup. intros k x Hk. unfold Get_item.
    by rewrite Z.add_0_l, (HGet' k x Hk).
  - rewrite filter_seqZ_nil; [done|]. intros i Hi.
    destruct (lookup_lt_is_Some_2 items (Z.to_nat i)) as [x Hx].
    { unfold len in *. lia. }
    unfold Get_fails. rewrite <- (Z2Nat.id i) by lia. by rewrite (HGet' _ x Hx).
Qed.

End Lookups.

(** ** Sorting and what it leaves alone *)

Section Sorted_view.
Context {T : Type} `{!JSON T} `{!Filepath} `{!Runtime T}.
Implicit Types (d : DBList T) (w : World) (item : T).

(** The lookups in the order of the indices are the positions of
    [sortedIndexes] fetched one after the other. *)
Lemma Get_fmap d w :
  well_formed d ->
  Get d w <$> seqZ 0 (totalCount d) = getFromStorage d w <$> sortedIndexes d.
Proof.
  intros Hwf. pose proof Hwf as (Hlen & _). unfold len in Hlen.
  apply list_eq. intros k. rewrite !list_lookup_fmap.
  destruct (sortedIndexes d !! k) as [p|] eqn:Hp; cbn.
  - pose proof (lookup_lt_Some _ _ _ Hp).
    rewrite lookup_seqZ_lt by lia. cbn. f_equal.
    rewrite Z.add_0_l. by apply Get_getFromStorage.
  - apply lookup_ge_None in Hp. rewrite lookup_seqZ_ge by lia. done.
Qed.

Lemma Sort_getFromStorage d w compare d' w' p :
  Sort d w compare = Done d' -> getFromStorage d' w' p = getFromStorage d w' p.
Proof.
  intros (Hpath & _ & _ & Hmem)%Sort_fields.
  unfold getFromStorage, retrieveFromDisk, filePathForIndex.
  by rewrite Hpath, Hmem.
Qed.

(** X10. [Sort] loses nothing and duplicates nothing.  It leaves [Size]
    and what is stored at every physical position as they are, and the
    results of [Get] over all the indices after the call are a
    rearrangement of the results before it. *)
Theorem Sort_keeps_items d w compare d' :
  reachable d ->
  Sort d w compare = Done d' ->
  Size d' = Size d /\
  (forall w' p, getFromStorage d' w' p = getFromStorage d w' p) /\
  (forall w', Get d' w' <$> seqZ 0 (Size d') ≡ₚ Get d w' <$> seqZ 0 (Size d)).
Proof.
  intros Hd HS. pose proof (reachable_well_formed d Hd) as Hwf.
  pose proof (Sort_well_formed d w compare d' Hwf HS) as Hwf'.
  split_and!.
  - by destruct (Sort_fields _ _ _ _ HS) as (_ & _ & ? & _).
  - intros w' p. by eapply Sort_getFromStorage.
  - intros w'. unfold Size. rewrite !Get_fmap by done.
    rewrite (list_fmap_ext (getFromStorage d' w') (getFromStorage d w')).
    + by rewrite <- (Sort_Permutation d w compare d' HS).
    + intros k p _. by eapply Sort_getFromStorage.
Qed.

Lemma Sort_Get_ordered d w compare cmp d' (i j : Z) a b :
  well_formed d ->
  (forall x y, compare x y = Done (cmp x y)) ->
  StrictWeakOrder cmp ->
  isSorted d = false ->
  Sort d w compare = Done d' ->
  0 <= i < j ->
  Get d' w i = Done (a, None) -> Get d' w j = Done (b, None) ->
  cmp b a = false.
Proof.
  intros Hwf Hcmp Hswo Hflag HS Hij Ha Hb.
  pose proof (Sort_well_formed d w compare d' Hwf HS) as Hwf'.
  assert (j < totalCount d') as Hj.
  { destruct (Z.lt_ge_cases j (totalCount d')) as [|Hge]; [done|].
    pose proof Hwf' as (Hlen & _). unfold Get in Hb.
    by destruct (Z.geb_spec j (len (sortedIndexes d'))); [|lia]. }
  destruct (Get_in_range d' w i Hwf') as (p & Hp & _ & HGi & _); [lia|].
  destruct (Get_in_range d' w j Hwf') as (q & Hq & _ & HGj & _); [lia|].
  rewrite HGi, (Sort_getFromStorage _ _ _ _ _ _ HS) in Ha.
  rewrite HGj, (Sort_getFromStorage _ _ _ _ _ _ HS) in Hb.
  assert (before (sortedIndexes d') p q) as Hpq.
  { exists (Z.to_nat i), (Z.to_nat j). split_and!; [lia|done|done]. }
  rewrite (Sort_spec d w compare cmp Hwf Hcmp) in HS. injection HS as <-.
  rewrite Hflag in Hpq. cbn in Hpq.
  apply (insertion_sorted_sorted
           (fun x y => cmp (materialized d w x) (materialized d w y))) in Hpq.
  - unfold materialized in Hpq. by rewrite Ha, Hb in Hpq.
  - by apply (StrictWeakOrder_on (materialized d w)).
Qed.

(** X11. After [Sort] the list reads in order.  The comparator is a
    strict weak order that returns and [isSorted] is not set, as after
    any [Add]: then of two items that [Get] returns from the sorted list
    on the disk it was sorted on, the one at the larger index is never
    ordered before the other.  A successful [Add] does clear [isSorted]. *)
Theorem Sort_then_Get_in_order d w compare (cmp : T -> T -> bool) d' :
  reachable d ->
  (forall x y, compare x y = Done (cmp x y)) ->
  StrictWeakOrder cmp ->
  isSorted d = false ->
  Sort d w compare = Done d' ->
  (forall i j a b,
     0 <= i < j ->
     Get d' w i = Done (a, None) -> Get d' w j = Done (b, None) ->
     cmp b a = false) /\
  (forall item w1 d1 w2, Add d' item w1 = (d1, None, w2) -> isSorted d1 = false).
Proof.
  intros Hd Hcmp Hswo Hflag HS. split.
  - intros i j a b. apply (Sort_Get_ordered d w compare cmp d'); auto.
    by apply reachable_well_formed.
  - intros item w1 d1 w2 Hadd.
    apply Add_inv in Hadd
      as [(_ & _ & -> & _)|[(_ & _ & -> & _)|(? & [=] & _)]]; done.
Qed.

Lemma omap_lookup_ordered {A B} (f : A -> option B) (l : list A) (i j : nat) a b :
  (i < j)%nat -> omap f l !! i = Some a -> omap f l !! j = Some b ->
  exists i' j' x y, (i' < j')%nat /\ l !! i' = Some x /\ l !! j' = Some y /\
                    f x = Some a /\ f y = Some b.
Proof.
  revert i j. induction l as [|x l IH]; intros i j Hij Hi Hj; [done|].
  cbn [omap list_omap] in Hi, Hj. destruct (f x) as [y|] eqn:Hfx.
  - destruct j as [|j]; [lia|]. cbn in Hj. destruct i as [|i]; cbn in Hi.
    + injection Hi as ->.
      assert (b ∈ omap f l) as Hb by (apply list_elem_of_lookup; eauto).
      apply list_elem_of_omap in Hb as (z & Hz & Hfz).
      apply list_elem_of_lookup in Hz as [j' Hj'].
      exists 0%nat, (S j'), x, z. split_and!; [lia|done..].
    + destruct (IH i j) as (i' & j' & u & v & ? & ? & ? & ? & ?); [lia|done|done|].
      exists (S i'), (S j'), u, v. split_and!; [lia|done..].
  - destruct (IH i j) as (i' & j' & u & v & ? & ? & ? & ? & ?); [lia|done|done|].
    exists (S i'), (S j'), u, v. split_and!; [lia|done..].
Qed.

End Sorted_view.

(** ** The two tiers *)

Section Tiers.
Context {T : Type} `{!JSON T} `{!Filepath} `{!Runtime T}.
Implicit Types (d : DBList T) (w : World) (item : T).

Lemma omap_ext_in {A B} (f g : A -> option B) (l : list A) :
  (forall x, x ∈ l -> f x = g x) -> omap f l = omap g l.
Proof.
  induction l as [|x l IH]; intros Hfg; [done|]. cbn [omap list_omap].
  rewrite (Hfg x) by by left. rewrite IH; [done|]. intros y Hy. apply Hfg. by right.
Qed.

Lemma omap_fmap {A B C} (f : B -> option C) (g : A -> B) (l : list A) :
  omap f (g <$> l) = omap (fun x => f (g x)) l.
Proof. induction l as [|x l IH]; [done|]. cbn. by rewrite IH. Qed.

(** X13. The capacity decides where a position lives.  On a list a
    program can hold, [memoryData] has [min Size maxInMemory] items; a
    position below [maxInMemory] is read from memory, whatever the state
    of the disk, and never fails; a position from [maxInMemory] on is read
    from its record. *)
Theorem positions_by_capacity d w p :
  reachable d ->
  0 <= p < Size d ->
  len (memoryData d) = Z.min (Size d) (maxInMemory d) /\
  (p < maxInMemory d ->
   exists item, memoryData d !! Z.to_nat p = Some item /\
                getFromStorage d w p = Done (item, None)) /\
  (maxInMemory d <= p ->
   getFromStorage d w p = Done (retrieveFromDisk d w p)).
Proof.
  intros Hd Hp. pose proof (reachable_well_formed d Hd) as (_ & _ & Hmem & _).
  unfold Size, len in *. split_and!; [done| |].
  - intros Hlt.
    destruct (lookup_lt_is_Some_2 (memoryData d) (Z.to_nat p)) as [item Hitem]; [lia|].
    exists item. split; [done|]. apply getFromStorage_memory; [lia|done].
  - intros Hge. apply getFromStorage_disk. unfold len. lia.
Qed.



(** X15. A new list.  [NewDBList] panics on a negative capacity.  When
    it returns, the capacity is not negative and the list is empty, with
    the path and the capacity it was given: [Size] is zero, [Get] returns
    the index-out-of-range error at every index from zero on, [Sort]
    changes nothing and the iterator sends and logs nothing, under any
    context. *)
Theorem NewDBList_is_empty path C :
  (C < 0 -> NewDBList (T := T) path C = Panicked MakeSliceCapOutOfRange) /\
  (forall d, NewDBList path C = Done d ->
     0 <= C /\ Size d = 0 /\ diskPath d = path /\ maxInMemory d = C /\
     (forall w i, 0 <= i ->
        Get d w i = Done (zero, Some (errorString "index out of range"))) /\
     (forall w compare, Sort d w compare = Done d) /\
     (forall w ctx, Iterator d w ctx = Done ([], []))).
Proof.
  split.
  - intros HC. unfold NewDBList, makeslice_cap_ok.
    by destruct (Z.leb_spec 0 C); [lia|].
  - intros d [HC ->]%NewDBList_inv. split_and!; try done.
    intros w i Hi. unfold Get. cbn [sortedIndexes].
    change (len (@nil Z)) with 0. by destruct (Z.geb_spec i 0); [|lia].
Qed.

(** X16. [Add] hides no failure and invents none.  At capacity, [Add]
    creates the directory of the record, encodes the item, creates the
    file and writes it, in this order, and the first of these that fails
    decides the error: a refused [MkdirAll] comes back wrapped as a
    directory error, the error of [json.Marshal], of [os.Create] or of
    [Write] comes back as it is.  When none fails [Add] succeeds and the
    record holds the encoding. *)
Theorem Add_reports_the_first_failure d item w :
  reachable d ->
  maxInMemory d <= Size d ->
  let filePath := recordPath (diskPath d) (Size d) in
  match fault w SysMkdirAll (filepath_Dir filePath) with
  | Some e =>
      exists w', Add d item w
                 = (d, Some (wrapError "failed to create directory: " e), w')
  | None =>
      match json_Marshal item with
      | (_, Some e) => exists w', Add d item w = (d, Some e, w')
      | (data, None) =>
          match fault w SysCreate filePath with
          | Some e => exists w', Add d item w = (d, Some e, w')
          | None =>
              match fault w SysWrite filePath with
              | Some e => exists w', Add d item w = (d, Some e, w')
              | None =>
                  exists d' w', Add d item w = (d', None, w') /\
                    Size d' = Size d + 1 /\
                    files w' !! filePath = Some data
              end
          end
      end
  end.
Proof.
  intros Hd Hcap filePath. subst filePath.
  pose proof (reachable_well_formed d Hd) as (_ & _ & Hmem & _).
  unfold Size in *. unfold Add.
  destruct (Z.ltb_spec (len (memoryData d)) (maxInMemory d)); [lia|].
  unfold filePathForIndex, os_MkdirAll, recordPath, fmt_Errorf_w.
  destruct (fault w SysMkdirAll _) as [e|]; [by eexists|].
  destruct (json_Marshal item) as [data [e|]]; [by eexists|].
  unfold os_Create; cbn [fault].
  destruct (fault w SysCreate _) as [e|]; [by eexists|].
  unfold File_Write; cbn [fault].
  destruct (fault w SysWrite _) as [e|]; [by eexists|].
  eexists _, _. split_and!; [done|done|]. cbn [files]. apply lookup_insert_eq.
Qed.

End Tiers.

(** ** Iterating a sorted list *)

Section Sorted_iteration.
Context {T : Type} `{!JSON T} `{!Filepath} `{!Runtime T}.
Implicit Types (d : DBList T) (w : World) (item : T).

(** Every index is either sent or logged. *)
Lemma Iterator_counts d w (l : list Z) :
  (length (omap (Get_item d w) l)
   + length (filter (fun k => Get_fails d w k = true) l))%nat = length l.
Proof.
  induction l as [|i l IH]; [done|].
  rewrite filter_cons. cbn [omap list_omap length].
  destruct (Get_fails d w i) eqn:Hf.
  - assert (Get_item d w i = None) as ->.
    { destruct (Get_item d w i) eqn:Hitem; [|done].
      assert (Get_fails d w i = false); [|congruence].
      apply Get_fails_item. by rewrite Hitem. }
    rewrite decide_True by done. cbn [length]. lia.
  - destruct (proj1 (Get_fails_item d w i) Hf) as [item ->].
    rewrite decide_False by done. cbn [length]. lia.
Qed.

(** What the iterator sends, in terms of the positions. *)
Lemma Iterator_sent d w :
  well_formed d ->
  omap (Get_item d w) (seqZ 0 (totalCount d))
  = omap (fun p => match getFromStorage d w p with
                   | Done (item, None) => Some item
                   | _ => None
                   end) (sortedIndexes d).
Proof.
  intros Hwf. unfold Get_item.
  rewrite <- (omap_fmap
    (fun r => match r with Done (item, None) => Some item | _ => None end)
    (Get d w)).
  rewrite Get_fmap by done. by rewrite omap_fmap.
Qed.

(** X12. Iterating a sorted list gives all the items, in order.  Under
    the conditions of X11 and with a context that is never cancelled, the
    iterator over the sorted list sends exactly what [Get] returns for
    the indices from [0] to [Size - 1], one after the other, skipping the
    indices where [Get] fails and logging one line for each of these.
    What it sends is a rearrangement of what the iterator sent before the
    sort, with as many lines logged, and it is in order: of two items
    sent the later one is never ordered before the earlier one. *)
Theorem Iterator_after_Sort_in_order d w compare (cmp : T -> T -> bool) d' :
  reachable d ->
  (forall x y, compare x y = Done (cmp x y)) ->
  StrictWeakOrder cmp ->
  isSorted d = false ->
  Sort d w compare = Done d' ->
  exists sent logged sent0 logged0,
    Iterator d' w context_Background = Done (sent, logged) /\
    Iterator d w context_Background = Done (sent0, logged0) /\
    sent = omap (Get_item d' w) (seqZ 0 (Size d')) /\
    logged = Iterator_log <$>
               filter (fun i => Get_fails d' w i = true) (seqZ 0 (Size d')) /\
    sent ≡ₚ sent0 /\
    len sent + len logged = Size d /\
    len logged = len logged0 /\
    (forall (i j : nat) a b,
       (i < j)%nat -> sent !! i = Some a -> sent !! j = Some b ->
       cmp b a = false).
Proof.
  intros Hd Hcmp Hswo Hflag HS. pose proof (reachable_well_formed d Hd) as Hwf.
  pose proof (Sort_well_formed d w compare d' Hwf HS) as Hwf'.
  pose proof Hwf as (Hlen & _). pose proof Hwf' as (Hlen' & _).
  destruct (Sort_fields _ _ _ _ HS) as (_ & _ & Htc & _).
  unfold len in Hlen, Hlen'. unfold Size.
  assert (omap (Get_item d' w) (seqZ 0 (totalCount d'))
          ≡ₚ omap (Get_item d w) (seqZ 0 (totalCount d))) as Hperm.
  { rewrite !Iterator_sent by done.
    rewrite <- (Sort_Permutation d w compare d' HS).
    erewrite omap_ext_in; [done|]. intros p _. cbn beta.
    by rewrite (Sort_getFromStorage _ _ _ _ w p HS). }
  pose proof (Iterator_counts d w (seqZ 0 (totalCount d))) as Hcount.
  pose proof (Iterator_counts d' w (seqZ 0 (totalCount d'))) as Hcount'.
  rewrite length_seqZ in Hcount, Hcount'.
  pose proof (Permutation_length Hperm) as Hsame.
  eexists _, _, _, _. split_and!.
  - unfold Iterator. rewrite (Iterator_loop_spec d' w) by (done || lia).
    rewrite Z2Nat.id by lia. reflexivity.
  - unfold Iterator. rewrite (Iterator_loop_spec d w) by (done || lia).
    rewrite Z2Nat.id by lia. reflexivity.
  - reflexivity.
  - reflexivity.
  - exact Hperm.
  - unfold len. rewrite length_fmap. lia.
  - unfold len. rewrite !length_fmap. lia.
  - intros i j a b Hij Hi Hj.
    destruct (omap_lookup_ordered _ _ i j a b Hij Hi Hj)
      as (i' & j' & x & y & Hij' & Hx & Hy & Hfx & Hfy).
    apply lookup_seqZ in Hx as [-> _]. apply lookup_seqZ in Hy as [-> _].
    unfold Get_item in Hfx, Hfy.
    destruct (Get d' w (0 + Z.of_nat i')) as [[a' [erra|]]|] eqn:HGa; try done.
    destruct (Get d' w (0 + Z.of_nat j')) as [[b' [errb|]]|] eqn:HGb; try done.
    injection Hfx as ->. injection Hfy as ->.
    apply (Sort_Get_ordered d w compare cmp d' (0 + Z.of_nat i') (0 + Z.of_nat j'));
      auto. lia.
Qed.

End Sorted_iteration.

Section Determined.
Context {T : Type} `{!JSON T} `{!Filepath} `{!Runtime T}.
Implicit Types (d : DBList T) (w : World) (item : T).

(** X17. What [Sort] leaves in [sortedIndexes] is fixed by the comparator
    and by the order it found.  For a strict weak order that returns, on
    a list whose flag is not set, any arrangement of the positions that
    is sorted for the comparator and keeps the earlier order of the
    positions it does not order is the one [Sort] produces. *)
Theorem Sort_result_is_determined d w compare (cmp : T -> T -> bool) (s : list Z) :
  reachable d ->
  (forall x y, compare x y = Done (cmp x y)) ->
  StrictWeakOrder cmp ->
  isSorted d = false ->
  sortedIndexes d ≡ₚ s ->
  (forall p q, before s p q ->
     cmp (materialized d w q) (materialized d w p) = false) ->
  (forall p q, before (sortedIndexes d) p q ->
     cmp (materialized d w q) (materialized d w p) = false -> before s p q) ->
  exists d', Sort d w compare = Done d' /\ sortedIndexes d' = s.
Proof.
  intros Hd Hcmp Hswo Hflag Hperm Hsorted Hstable.
  pose proof (reachable_well_formed d Hd) as Hwf.
  eexists. split; [by apply Sort_spec|]. rewrite Hflag. cbn. symmetry.
  apply (stable_sort_unique
           (fun a b => cmp (materialized d w a) (materialized d w b)));
    [|by apply well_formed_NoDup|done|done|done].
  by apply (StrictWeakOrder_on (materialized d w)).
Qed.

End Determined.

(** ** The further properties on concrete lists *)

Lemma two_items_reachable : reachable two_items.
Proof. apply list_after_reachable. lia. Qed.

Lemma three_items_reachable : reachable three_items.
Proof. apply list_after_reachable. lia. Qed.

Lemma Item_round_trip (ids : list Z) (item : Item) (data : bytes) :
  forallb (fun n => Z.eqb (ID (Item_Unmarshal (Item_Marshal (mkItem n)).1 zero).1) n
                    && match (Item_Unmarshal (Item_Marshal (mkItem n)).1 zero).2 with
                       | None => true
                       | Some _ => false
                       end) ids = true ->
  item ∈ (mkItem <$> ids) ->
  json_Marshal item = (data, None) ->
  json_Unmarshal data zero = (item, None).
Proof.
  intros Hall (n & -> & Hn)%list_elem_of_fmap [= <-].
  rewrite forallb_forall in Hall. apply list_elem_of_In in Hn.
  specialize (Hall n Hn). apply andb_prop in Hall as [Hid Herr].
  cbn [json_Unmarshal Item_JSON].
  destruct (Item_Unmarshal _ zero) as [[m] [e|]]; [done|].
  cbn in Hid. apply Z.eqb_eq in Hid. by subst.
Qed.

(** X1: the item of ID 3 is added to [two_items] and goes to a record. *)
Lemma Add_then_Get_witness :
  reachable two_items /\
  Add two_items (mkItem 3) two_items_disk
  = (after_Add two_items (mkItem 3) two_items_disk, None,
     disk_after_Add two_items (mkItem 3) two_items_disk) /\
  Get (after_Add two_items (mkItem 3) two_items_disk)
      (disk_after_Add two_items (mkItem 3) two_items_disk) 2
  = Done (mkItem 3, None).
Proof.
  assert (Add two_items (mkItem 3) two_items_disk
          = (after_Add two_items (mkItem 3) two_items_disk, None,
             disk_after_Add two_items (mkItem 3) two_items_disk)) as Hadd
    by (vm_compute; reflexivity).
  split; [exact two_items_reachable|]. split; [exact Hadd|].
  destruct (Add_then_Get two_items (mkItem 3) two_items_disk _ _
              two_items_reachable Hadd) as (_ & _ & Hdisk).
  apply Hdisk.
  - change (1 <= 2). lia.
  - reflexivity.
  - intros data. apply (Item_round_trip [3]); [reflexivity|]. by left.
Defined.

(** X2: the disk of [two_items] turns full, an [Add] fails, and index 1 is
    read as before. *)
Lemma Add_keeps_earlier_items_witness :
  reachable two_items /\
  (forall p q, recordPath (diskPath two_items) p = recordPath (diskPath two_items) q ->
               p = q) /\
  (exists e, Add two_items (mkItem 3) (turned_full two_items_disk)
     = (two_items, Some e, disk_after_Add two_items (mkItem 3) (turned_full two_items_disk))) /\
  0 <= 1 < Size two_items /\
  Get two_items (disk_after_Add two_items (mkItem 3) (turned_full two_items_disk)) 1
  = Get two_items (turned_full two_items_disk) 1.
Proof.
  assert (Add two_items (mkItem 3) (turned_full two_items_disk)
     = (two_items, Some (errorString "no space left on device"),
        disk_after_Add two_items (mkItem 3) (turned_full two_items_disk))) as Hadd
    by (vm_compute; reflexivity).
  assert (0 <= 1 < Size two_items) as Hi by (change (0 <= 1 < 2); lia).
  refine (conj two_items_reachable (conj (unix_recordPath_inj "data")
            (conj (ex_intro _ _ Hadd) (conj Hi _)))).
  exact (Add_keeps_earlier_items two_items (mkItem 3) (turned_full two_items_disk)
           _ _ _ 1 two_items_reachable (unix_recordPath_inj "data") Hadd Hi).
Defined.

(** X3: an [Add] and a [Sort] after [two_items]. *)
Lemma run_keeps_positions_witness :
  reachable two_items /\
  (forall p q, recordPath (diskPath two_items) p = recordPath (diskPath two_items) q ->
               p = q) /\
  run (two_items, two_items_disk)
      (sorted_after (after_Add two_items (mkItem 0) two_items_disk)
         (disk_after_Add two_items (mkItem 0) two_items_disk) by_ID,
       disk_after_Add two_items (mkItem 0) two_items_disk) /\
  getFromStorage
    (sorted_after (after_Add two_items (mkItem 0) two_items_disk)
       (disk_after_Add two_items (mkItem 0) two_items_disk) by_ID)
    (disk_after_Add two_items (mkItem 0) two_items_disk) 1
  = getFromStorage two_items two_items_disk 1.
Proof.
  assert (run (two_items, two_items_disk)
      (sorted_after (after_Add two_items (mkItem 0) two_items_disk)
         (disk_after_Add two_items (mkItem 0) two_items_disk) by_ID,
       disk_after_Add two_items (mkItem 0) two_items_disk)) as Hrun.
  { eapply rtc_l; [|apply rtc_once].
    - apply (step_Add two_items two_items_disk (mkItem 0)
               (after_Add two_items (mkItem 0) two_items_disk) None
               (disk_after_Add two_items (mkItem 0) two_items_disk)).
      vm_compute. reflexivity.
    - apply (step_Sort _ _ by_ID). vm_compute. reflexivity. }
  split_and!; [exact two_items_reachable|exact (unix_recordPath_inj "data")
              |exact Hrun|].
  destruct (run_keeps_positions two_items two_items_disk _ _
              two_items_reachable (unix_recordPath_inj "data") Hrun)
    as (_ & _ & _ & _ & _ & Hkeep).
  apply Hkeep. change (0 <= 1 < 2). lia.
Defined.

(** X5: the file of position 2 cannot be created; of four items two are
    added. *)
Lemma Adds_stops_at_first_failure_witness :
  Adds (list_after "data" 1 [] empty_disk) (mkItem <$> [1; 2; 3; 4])
    (create_refused_at "data/2.json")
  = ((Adds (list_after "data" 1 [] empty_disk) (mkItem <$> [1; 2; 3; 4])
        (create_refused_at "data/2.json")).1.1,
     Some (errorString "permission denied"),
     (Adds (list_after "data" 1 [] empty_disk) (mkItem <$> [1; 2; 3; 4])
        (create_refused_at "data/2.json")).2) /\
  exists added item rest,
    mkItem <$> [1; 2; 3; 4] = added ++ item :: rest /\
    Size (Adds (list_after "data" 1 [] empty_disk) (mkItem <$> [1; 2; 3; 4])
            (create_refused_at "data/2.json")).1.1
    = Size (list_after "data" 1 [] empty_disk) + len added.
Proof.
  assert (Adds (list_after "data" 1 [] empty_disk) (mkItem <$> [1; 2; 3; 4])
    (create_refused_at "data/2.json")
  = ((Adds (list_after "data" 1 [] empty_disk) (mkItem <$> [1; 2; 3; 4])
        (create_refused_at "data/2.json")).1.1,
     Some (errorString "permission denied"),
     (Adds (list_after "data" 1 [] empty_disk) (mkItem <$> [1; 2; 3; 4])
        (create_refused_at "data/2.json")).2)) as HAdds
    by (vm_compute; reflexivity).
  split; [exact HAdds|].
  destruct (Adds_stops_at_first_failure _ _ _ _ _ _ HAdds)
    as (added & item & rest & w1 & Hitems & _ & _ & Hsize).
  exists added, item, rest. split; [exact Hitems|exact Hsize].
Defined.

(** X6: IDs 3 and 4 are added to [two_items]. *)
Lemma Adds_then_Get_witness :
  reachable two_items /\
  Adds two_items (mkItem <$> [3; 4]) two_items_disk
  = ((Adds two_items (mkItem <$> [3; 4]) two_items_disk).1.1, None,
     (Adds two_items (mkItem <$> [3; 4]) two_items_disk).2) /\
  Get (Adds two_items (mkItem <$> [3; 4]) two_items_disk).1.1
      (Adds two_items (mkItem <$> [3; 4]) two_items_disk).2 3
  = Done (mkItem 4, None) /\
  Get (Adds two_items (mkItem <$> [3; 4]) two_items_disk).1.1
      (Adds two_items (mkItem <$> [3; 4]) two_items_disk).2 1
  = Get two_items two_items_disk 1.
Proof.
  assert (Adds two_items (mkItem <$> [3; 4]) two_items_disk
  = ((Adds two_items (mkItem <$> [3; 4]) two_items_disk).1.1, None,
     (Adds two_items (mkItem <$> [3; 4]) two_items_disk).2)) as HAdds
    by (vm_compute; reflexivity).
  split; [exact two_items_reachable|]. split; [exact HAdds|].
  destruct (Adds_then_Get two_items (mkItem <$> [3; 4]) two_items_disk _ _
              two_items_reachable (unix_recordPath_inj "data")
              (fun _ _ => eq_refl)
              (fun item data => Item_round_trip [3; 4] item data eq_refl) HAdds)
    as (_ & Hnew & Hold).
  split.
  - exact (Hnew 1%nat (mkItem 4) eq_refl).
  - apply Hold. change (0 <= 1 < 2). lia.
Defined.

(** X7: [Get(-3)] on [two_items]. *)
Lemma Get_panics_only_below_zero_witness :
  reachable two_items /\ exists p, Get two_items two_items_disk (-3) = Panicked p.
Proof.
  split; [exact two_items_reachable|].
  apply (proj1 (Get_panics_only_below_zero two_items two_items_disk (-3)
                  two_items_reachable)). lia.
Defined.

(** X8: an iteration over [three_items] cancelled at the start of round
    2 has handled at most two indices. *)
Lemma Iterator_cancellation_witness :
  reachable three_items /\
  exists sent logged,
    Iterator three_items three_items_disk (cancelled_from 2) = Done (sent, logged) /\
    len sent + len logged <= 2.
Proof.
  split; [exact three_items_reachable|].
  destruct (Iterator_cancellation three_items three_items_disk (cancelled_from 2)
              three_items_reachable)
    as (sent & logged & sent0 & logged0 & HI & _ & _ & _ & Hk & _).
  exists sent, logged. split; [exact HI|]. apply Hk; [lia|reflexivity].
Defined.

(** X9: IDs 5, 1 and 4 on a new list of capacity 2. *)
Lemma Iterator_returns_the_batch_witness :
  NewDBList "data" 2 = Done (list_after "data" 2 [] empty_disk) /\
  Adds (list_after "data" 2 [] empty_disk) (mkItem <$> [5; 1; 4]) empty_disk
  = (list_after "data" 2 [5; 1; 4] empty_disk, None,
     disk_after "data" 2 [5; 1; 4] empty_disk) /\
  Iterator (list_after "data" 2 [5; 1; 4] empty_disk)
    (disk_after "data" 2 [5; 1; 4] empty_disk) context_Background
  = Done (mkItem <$> [5; 1; 4], []).
Proof.
  assert (NewDBList "data" 2 = Done (list_after "data" 2 [] empty_disk)) as Hnew
    by reflexivity.
  assert (Adds (list_after "data" 2 [] empty_disk) (mkItem <$> [5; 1; 4]) empty_disk
          = (list_after "data" 2 [5; 1; 4] empty_disk, None,
             disk_after "data" 2 [5; 1; 4] empty_disk)) as HAdds
    by (vm_compute; reflexivity).
  split; [exact Hnew|]. split; [exact HAdds|].
  exact (proj2 (Iterator_returns_the_batch "data" 2 _ (mkItem <$> [5; 1; 4])
                  empty_disk _ _ Hnew (unix_recordPath_inj "data")
                  (fun _ _ => eq_refl)
                  (fun item data => Item_round_trip [5; 1; 4] item data eq_refl)
                  HAdds)).
Defined.

(** X10: [three_items] sorted by ID. *)
Lemma Sort_keeps_items_witness :
  reachable three_items /\
  Sort three_items three_items_disk by_ID
  = Done (sorted_after three_items three_items_disk by_ID) /\
  Get (sorted_after three_items three_items_disk by_ID) three_items_disk
    <$> seqZ 0 (Size (sorted_after three_items three_items_disk by_ID))
  ≡ₚ Get three_items three_items_disk <$> seqZ 0 (Size three_items).
Proof.
  assert (Sort three_items three_items_disk by_ID
          = Done (sorted_after three_items three_items_disk by_ID)) as HS
    by (vm_compute; reflexivity).
  split; [exact three_items_reachable|]. split; [exact HS|].
  destruct (Sort_keeps_items three_items three_items_disk by_ID _
              three_items_reachable HS) as (_ & _ & Hperm).
  exact (Hperm three_items_disk).
Defined.

(** X11: [three_items] sorted by ID reads 1, 2, 3. *)
Lemma Sort_then_Get_in_order_witness :
  reachable three_items /\
  (forall x y, by_ID x y = Done (ID x <? ID y)) /\
  StrictWeakOrder (fun a b : Item => ID a <? ID b) /\
  isSorted three_items = false /\
  Sort three_items three_items_disk by_ID
  = Done (sorted_after three_items three_items_disk by_ID) /\
  (ID (mkItem 3) <? ID (mkItem 1)) = false.
Proof.
  assert (Sort three_items three_items_disk by_ID
          = Done (sorted_after three_items three_items_disk by_ID)) as HS
    by (vm_compute; reflexivity).
  assert (forall x y, by_ID x y = Done (ID x <? ID y)) as Hcmp by reflexivity.
  assert (isSorted three_items = false) as Hflag by reflexivity.
  refine (conj three_items_reachable (conj Hcmp (conj by_ID_StrictWeakOrder
            (conj Hflag (conj HS _))))).
  destruct (Sort_then_Get_in_order three_items three_items_disk by_ID _ _
              three_items_reachable Hcmp by_ID_StrictWeakOrder Hflag HS)
    as [Horder _].
  apply (Horder 0 2 (mkItem 1) (mkItem 3)); [lia| |]; vm_compute; reflexivity.
Defined.

(** X12: and the iterator sends all three of them, in that order. *)
Lemma Iterator_after_Sort_in_order_witness :
  reachable three_items /\
  (forall x y, by_ID x y = Done (ID x <? ID y)) /\
  StrictWeakOrder (fun a b : Item => ID a <? ID b) /\
  isSorted three_items = false /\
  Sort three_items three_items_disk by_ID
  = Done (sorted_after three_items three_items_disk by_ID) /\
  exists sent logged sent0 logged0,
    Iterator (sorted_after three_items three_items_disk by_ID) three_items_disk
      context_Background = Done (sent, logged) /\
    Iterator three_items three_items_disk context_Background
    = Done (sent0, logged0) /\
    sent = omap (Get_item (sorted_after three_items three_items_disk by_ID)
                   three_items_disk)
             (seqZ 0 (Size (sorted_after three_items three_items_disk by_ID))) /\
    logged = Iterator_log <$>
               filter (fun i => Get_fails
                          (sorted_after three_items three_items_disk by_ID)
                          three_items_disk i = true)
                 (seqZ 0 (Size (sorted_after three_items three_items_disk by_ID))) /\
    sent ≡ₚ sent0 /\
    len sent + len logged = Size three_items /\
    len logged = len logged0 /\
    forall (i j : nat) a b,
      (i < j)%nat -> sent !! i = Some a -> sent !! j = Some b ->
      (ID b <? ID a) = false.
Proof.
  assert (Sort three_items three_items_disk by_ID
          = Done (sorted_after three_items three_items_disk by_ID)) as HS
    by (vm_compute; reflexivity).
  assert (forall x y, by_ID x y = Done (ID x <? ID y)) as Hcmp by reflexivity.
  assert (isSorted three_items = false) as Hflag by reflexivity.
  refine (conj three_items_reachable (conj Hcmp (conj by_ID_StrictWeakOrder
            (conj Hflag (conj HS _))))).
  exact (Iterator_after_Sort_in_order three_items three_items_disk by_ID _ _
           three_items_reachable Hcmp by_ID_StrictWeakOrder Hflag HS).
Defined.

(** X13: position 1 of [two_items] is read from its record. *)
Lemma positions_by_capacity_witness :
  reachable two_items /\ 0 <= 1 < Size two_items /\
  getFromStorage two_items two_items_disk 1
  = Done (retrieveFromDisk two_items two_items_disk 1).
Proof.
  assert (0 <= 1 < Size two_items) as Hp by (change (0 <= 1 < 2); lia).
  refine (conj two_items_reachable (conj Hp _)).
  destruct (positions_by_capacity two_items two_items_disk 1
              two_items_reachable Hp) as (_ & _ & Hdisk).
  apply Hdisk. change (1 <= 1). lia.
Defined.


(** X15: a capacity of [-1] panics; a new list of capacity 2 is empty. *)
Lemma NewDBList_is_empty_witness :
  NewDBList (T := Item) "data" (-1) = Panicked MakeSliceCapOutOfRange /\
  NewDBList "data" 2 = Done (list_after "data" 2 [] empty_disk) /\
  Size (list_after "data" 2 [] empty_disk) = 0 /\
  Get (list_after "data" 2 [] empty_disk) empty_disk 0
  = Done (zero, Some (errorString "index out of range")) /\
  Iterator (list_after "data" 2 [] empty_disk) empty_disk context_Background
  = Done ([], []).
Proof.
  assert (NewDBList "data" 2 = Done (list_after "data" 2 [] empty_disk))
    as Hnew by reflexivity.
  destruct (NewDBList_is_empty (T := Item) "data" (-1)) as [Hpanic _].
  destruct (NewDBList_is_empty (T := Item) "data" 2) as [_ Hempty].
  destruct (Hempty _ Hnew) as (_ & Hsize & _ & _ & HGet & _ & HIt).
  refine (conj (Hpanic _) (conj Hnew (conj Hsize (conj (HGet _ 0 _) (HIt _ _)))));
    lia.
Defined.

(** X16: [two_items] is at capacity and the disk is full. *)
Lemma Add_reports_the_first_failure_witness :
  reachable two_items /\ maxInMemory two_items <= Size two_items /\
  exists w', Add two_items (mkItem 3) (turned_full two_items_disk)
             = (two_items, Some (errorString "no space left on device"), w').
Proof.
  assert (maxInMemory two_items <= Size two_items) as Hcap
    by (change (1 <= 2); lia).
  refine (conj two_items_reachable (conj Hcap _)).
  exact (Add_reports_the_first_failure two_items (mkItem 3)
           (turned_full two_items_disk) two_items_reachable Hcap).
Defined.

Lemma before_three {A} (a b c p q : A) :
  before [a; b; c] p q -> (p = a /\ q = b) \/ (p = a /\ q = c) \/ (p = b /\ q = c).
Proof.
  intros (i & j & Hij & Hi & Hj).
  destruct i as [|[|[|i]]], j as [|[|[|j]]]; cbn in Hi, Hj; try lia; try done;
    injection Hi as <-; injection Hj as <-; tauto.
Qed.

(** X17: for [three_items], of IDs 3, 1, 2, the arrangement [1; 2; 0] is
    sorted and stable, so it is what [Sort] leaves. *)
Lemma Sort_result_is_determined_witness :
  reachable three_items /\
  (forall x y, by_ID x y = Done (ID x <? ID y)) /\
  StrictWeakOrder (fun a b : Item => ID a <? ID b) /\
  isSorted three_items = false /\
  sortedIndexes three_items ≡ₚ [1; 2; 0] /\
  exists d', Sort three_items three_items_disk by_ID = Done d' /\
             sortedIndexes d' = [1; 2; 0].
Proof.
  assert (forall x y, by_ID x y = Done (ID x <? ID y)) as Hcmp by reflexivity.
  assert (isSorted three_items = false) as Hflag by reflexivity.
  assert (sortedIndexes three_items ≡ₚ [1; 2; 0]) as Hperm.
  { change ([0; 1; 2] ≡ₚ [1; 2; 0]). rewrite (Permutation_cons_append [1; 2] 0). done. }
  refine (conj three_items_reachable (conj Hcmp (conj by_ID_StrictWeakOrder
            (conj Hflag (conj Hperm _))))).
  apply (Sort_result_is_determined three_items three_items_disk by_ID _ [1; 2; 0]
           three_items_reachable Hcmp by_ID_StrictWeakOrder Hflag Hperm).
  - intros p q [[-> ->]|[[-> ->]|[-> ->]]]%before_three; vm_compute; reflexivity.
  - intros p q Hpq. change (sortedIndexes three_items) with [0; 1; 2] in Hpq.
    apply before_three in Hpq as [[-> ->]|[[-> ->]|[-> ->]]].
    + vm_compute. discriminate.
    + vm_compute. discriminate.
    + intros _. exists 0%nat, 1%nat. split_and!; [lia|done|done].
Defined.
